(** * Marble texture generator: noise synthesis and vein painting

    A shallow embedding of [scripts/generate-marble-textures.py].

    Conventions of the embedding.
    - Python integers are [Z]; [float64] values that the script computes from
      finite inputs are rationals ([Q]), and a rational stands for the double
      nearest to it: sums, products and quotients are computed exactly, and
      the one operation of the script that is not continuous in its argument,
      the cast to [uint8], rounds its argument to that double first
      ([round_double]).  The script can leave the finite numbers at one
      place, the division of the rescale step: from there on a float is an
      [npfloat], which has IEEE's [NaN] and infinities.  [uint8] values are
      [Z] with the wrap-around modulo 256 written out.
    - Exceptions are the [Raise] case of [result].
    - The global generator of [numpy.random] and the one of [random] are
      threaded explicitly.
    - What the script takes from numpy, scipy, Pillow and [random] (the
      generators, the spline values of [ndimage.zoom], [np.sin], the pixels a
      wide line covers, the blur) enters through the classes below; every
      theorem holds for all their instances, and the instances declared in
      this file only serve to run the definitions on concrete inputs. *)

From Stdlib Require Import ZArith QArith Qround Qabs List Bool Lia Lqa.
Import ListNotations.

Open Scope Z_scope.

(** ** Python values *)

Inductive exn : Type :=
| ValueError.

Inductive result (A : Type) : Type :=
| Raise (e : exn)
| Return (a : A).

Arguments Raise {A} e.
Arguments Return {A} a.

(** [int(x)] on a float: truncation toward zero. *)
Definition py_int (x : Q) : Z := Z.quot (Qnum x) (Zpos (Qden x)).

(** [range(n)]. *)
Definition py_range (n : nat) : list Z := map Z.of_nat (seq 0 n).

(** ** numpy values *)

(** A [float64] that may have left the finite numbers. *)
Inductive npfloat : Type :=
| Finite (q : Q)
| PInf
| NInf
| NaN.

(** [a / b] on [float64]: numpy does not raise on a zero divisor (it warns);
    [0/0] is [nan] and [x/0] is a signed infinity. *)
Definition np_true_divide (a b : Q) : npfloat :=
  if Qeq_bool b 0 then
    if Qeq_bool a 0 then NaN
    else if Qle_bool 0 a then PInf else NInf
  else Finite (a / b).

(** A 2-D array of finite floats, as the list of its rows. *)
Definition grid : Type := list (list Q).

(** A 2-D array of floats after the rescale. *)
Definition field : Type := list (list npfloat).

(** Every row of [g] has [c] entries. *)
Definition row_width (c : nat) (g : grid) : Prop := Forall (fun r => length r = c) g.

(** [g] has at most [r] rows of at most [c] entries. *)
Definition within (r c : nat) (g : grid) : Prop :=
  (length g <= r)%nat /\ Forall (fun row => (length row <= c)%nat) g.

(** [np.zeros((height, width))]. *)
Definition np_zeros (height width : Z) : grid :=
  repeat (repeat 0%Q (Z.to_nat width)) (Z.to_nat height).

(** [a[:height, :width]]. *)
Definition slice2 (a : grid) (height width : Z) : grid :=
  map (firstn (Z.to_nat width)) (firstn (Z.to_nat height) a).

(** [a * amp] with a scalar. *)
Definition grid_scale (a : grid) (amp : Q) : grid :=
  map (map (fun v => (v * amp)%Q)) a.

Fixpoint zip_with {A B C : Type} (f : A -> B -> C) (l1 : list A) (l2 : list B) : list C :=
  match l1, l2 with
  | a :: t1, b :: t2 => f a b :: zip_with f t1 t2
  | _, _ => []
  end.

(** [a + b] on arrays of one shape (the script only adds arrays of one shape,
    see [octave_layer_shape] below). *)
Definition grid_add (a b : grid) : grid := zip_with (zip_with Qplus) a b.

(** The entries of an array, row by row. *)
Definition flat (g : grid) : list Q := concat g.

(** [g[i, j]]. *)
Definition grid_nth (g : grid) (i j : nat) : Q := nth j (nth i g []) 0%Q.

Definition Qmin_b (a b : Q) : Q := if Qle_bool a b then a else b.
Definition Qmax_b (a b : Q) : Q := if Qle_bool a b then b else a.

(** [a.min()] and [a.max()]: [None] stands for the [ValueError] numpy raises
    on an array with no entry. *)
Definition np_min (g : grid) : option Q :=
  match flat g with
  | [] => None
  | v :: vs => Some (fold_left Qmin_b vs v)
  end.

Definition np_max (g : grid) : option Q :=
  match flat g with
  | [] => None
  | v :: vs => Some (fold_left Qmax_b vs v)
  end.

(** [np.linspace(start, stop, num, endpoint=False)]. *)
Definition np_linspace (start stop : Q) (num : Z) : result (list Q) :=
  if num <? 0 then Raise ValueError
  else
    let step := ((stop - start) / inject_Z num)%Q in
    Return (map (fun i => (inject_Z i * step + start)%Q) (py_range (Z.to_nat num))).

(** ** The libraries behind the noise synthesizer *)

(** The global generator of [numpy.random]: [np.random.seed(s)] replaces the
    state, and each sample is one double of [[0, 1)]. *)
Class NumPyRandom : Type := {
  np_state : Type;
  np_random_seed : Z -> np_state;
  np_random_sample : np_state -> Q * np_state
}.

(** [mode=] of [scipy.ndimage]. *)
Inductive boundary_mode : Type :=
| Reflect
| GridMirror
| Constant
| GridConstant
| Nearest
| Mirror
| Wrap
| GridWrap.

(** [scipy.ndimage]: [spline_value order mode input zoom i j] is the entry
    [(i, j)] of the array [ndimage.zoom] interpolates from [input]. *)
Class NdImage : Type := {
  spline_value : nat -> boundary_mode -> grid -> Z -> nat -> nat -> Q
}.

Section Noise.

Context {RNG : NumPyRandom} {ND : NdImage}.

(** One row of [np.random.rand]: [n] samples in order. *)
Fixpoint rand_row (n : nat) (st : np_state) : list Q * np_state :=
  match n with
  | O => ([], st)
  | S k =>
      let (v, st1) := np_random_sample st in
      let (vs, st2) := rand_row k st1 in
      (v :: vs, st2)
  end.

(** [np.random.rand(rows, cols)]: the samples fill the array row by row. *)
Fixpoint np_random_rand (rows cols : nat) (st : np_state) : grid * np_state :=
  match rows with
  | O => ([], st)
  | S k =>
      let (r, st1) := rand_row cols st in
      let (rs, st2) := np_random_rand k cols st1 in
      (r :: rs, st2)
  end.

(** [ndimage.zoom(input, zoom, order=order, mode=mode)] with an integer zoom
    factor: the output has [zoom] times the rows and columns of the input. *)
Definition ndimage_zoom (input : grid) (zoom : Z) (order : nat) (mode : boundary_mode) : grid :=
  let rows := (length input * Z.to_nat zoom)%nat in
  let cols := (length (hd [] input) * Z.to_nat zoom)%nat in
  map (fun i => map (fun j => spline_value order mode input zoom i j) (seq 0 cols)) (seq 0 rows).

(** The random grid of an octave (lines 27-28). *)
Definition octave_grid (height width octave : Z) : grid * np_state :=
  let freq := 2 ^ octave in
  let st := np_random_seed (octave + 42) in
  np_random_rand
    (Z.to_nat (py_int (inject_Z height / inject_Z freq) + 2))
    (Z.to_nat (py_int (inject_Z width / inject_Z freq) + 2)) st.

(** What an octave adds to the accumulated array (lines 32-35). *)
Definition octave_layer (height width octave : Z) : grid :=
  let freq := 2 ^ octave in
  let amp := (1 / inject_Z freq)%Q in
  let noise_layer := fst (octave_grid height width octave) in
  let noise_layer_resized := ndimage_zoom noise_layer freq 3 Wrap in
  let noise_layer_resized := slice2 noise_layer_resized height width in
  grid_scale noise_layer_resized amp.

(** The body of the loop over the octaves (lines 23-35): the state of the
    loop is the accumulated array and the state of the global generator. *)
Definition octave_step (height width : Z) (acc : grid * np_state) (octave : Z) : grid * np_state :=
  let noise := fst acc in
  let freq := 2 ^ octave in
  let amp := (1 / inject_Z freq)%Q in
  let (noise_layer, st) := octave_grid height width octave in
  let noise_layer_resized := ndimage_zoom noise_layer freq 3 Wrap in
  let noise_layer_resized := slice2 noise_layer_resized height width in
  (grid_add noise (grid_scale noise_layer_resized amp), st).

(** Lines 19-35: the sum of the octaves before the rescale. *)
Definition accumulate_octaves (st : np_state) (height width : Z) : grid * np_state :=
  fold_left (octave_step height width) (py_range 6) (np_zeros height width, st).

(** Line 38: [(noise - noise.min()) / (noise.max() - noise.min())]. *)
Definition normalize (noise : grid) : result field :=
  match np_min noise, np_max noise with
  | Some mn, Some mx =>
      Return (map (map (fun v => np_true_divide (v - mn) (mx - mn))) noise)
  | _, _ => Raise ValueError
  end.

(** [create_seamless_noise(width, height, scale)], from the state [st] of the
    global numpy generator; the state it leaves is returned too. *)
Definition create_seamless_noise (st : np_state) (width height : Z) (scale : Q)
  : result field * np_state :=
  match np_linspace 0 scale width with
  | Raise e => (Raise e, st)
  | Return x =>
      match np_linspace 0 scale height with
      | Raise e => (Raise e, st)
      | Return y =>
          let (noise, st') := accumulate_octaves st height width in
          (normalize noise, st')
      end
  end.

(** Every entry of [g] equals [c]: a grid with zero variance. *)
Definition constant_grid (c : Q) (g : grid) : Prop :=
  Forall (Forall (fun v => (v == c)%Q)) g.

(** The field the specification asks for in the flat case: every value is
    0.5. *)
Definition uniform_half (f : field) : Prop :=
  forall v, In v (concat f) -> exists q, v = Finite q /\ (q == 1 # 2)%Q.

(** The synthesizer as the specification words it: the sum, over the six
    octaves [o = 0..5], of the amplitude [1/2^o] times the cubic, wrapped
    upsampling by [2^o] of a random grid of [height/2^o + 2] rows and
    [width/2^o + 2] columns drawn after seeding from the octave index. *)
Definition spec_octave_grid (height width o : Z) : grid :=
  fst (np_random_rand (Z.to_nat (height / 2 ^ o + 2)) (Z.to_nat (width / 2 ^ o + 2))
         (np_random_seed (o + 42))).

Definition spec_octave_value (height width : Z) (i j : nat) (o : Z) : Q :=
  ((1 / inject_Z (2 ^ o)) * spline_value 3 Wrap (spec_octave_grid height width o) (2 ^ o) i j)%Q.

Definition spec_noise_sum (height width : Z) (i j : nat) : Q :=
  fold_right Qplus 0%Q (map (spec_octave_value height width i j) [0; 1; 2; 3; 4; 5]).

End Noise.

(** ** Image buffers *)

(** A pixel: its red, green and blue channel. *)
Definition rgb (T : Type) : Type := (T * T * T)%type.

Definition rgb_map {A B : Type} (f : A -> B) (p : rgb A) : rgb B :=
  let '(r, g, b) := p in (f r, f g, f b).

Definition rgb_all {A : Type} (P : A -> Prop) (p : rgb A) : Prop :=
  let '(r, g, b) := p in P r /\ P g /\ P b.

(** An array of shape [(height, width, 3)]: the script handles [float64]
    arrays (the base colour plus the noise) and [uint8] arrays (what
    [add_veins] returns) with the same expressions. *)
Inductive ndarray : Type :=
| Float64 (a : list (list (rgb npfloat)))
| UInt8 (a : list (list (rgb Z))).

(** An 8-bit RGB Pillow image, as the list of its rows. *)
Definition image : Type := list (list (rgb Z)).

(** [a.shape[:2]]. *)
Definition nd_shape (a : ndarray) : Z * Z :=
  match a with
  | Float64 rows => (Z.of_nat (length rows), Z.of_nat (length (hd [] rows)))
  | UInt8 rows => (Z.of_nat (length rows), Z.of_nat (length (hd [] rows)))
  end.

(** [v * k] with a finite scalar, and [a + b], on [float64]. *)
Definition np_scale (v : npfloat) (k : Q) : npfloat :=
  match v with
  | Finite x => Finite (x * k)
  | NaN => NaN
  | PInf => if Qeq_bool k 0 then NaN else if Qle_bool 0 k then PInf else NInf
  | NInf => if Qeq_bool k 0 then NaN else if Qle_bool 0 k then NInf else PInf
  end.

Definition np_add (a b : npfloat) : npfloat :=
  match a, b with
  | Finite x, Finite y => Finite (x + y)
  | NaN, _ | _, NaN => NaN
  | PInf, NInf | NInf, PInf => NaN
  | PInf, _ | _, PInf => PInf
  | NInf, _ | _, NInf => NInf
  end.

(** [a * k] with the Python integer [k]: a [uint8] array stays [uint8] and
    the product wraps around modulo 256. *)
Definition nd_mul (a : ndarray) (k : Z) : ndarray :=
  match a with
  | Float64 rows => Float64 (map (map (rgb_map (fun v => np_scale v (inject_Z k)))) rows)
  | UInt8 rows => UInt8 (map (map (rgb_map (fun v => (v * k) mod 256))) rows)
  end.

(** The integer nearest to [y], a tie going to the even one. *)
Definition round_half_even (y : Q) : Z :=
  let f := Qfloor y in
  match (y - inject_Z f ?= 1 # 2)%Q with
  | Lt => f
  | Gt => f + 1
  | Eq => if Z.even f then f else f + 1
  end.

(** [x * 2^k], for [k] of either sign. *)
Definition Qshift (x : Q) (k : Z) : Q :=
  (x * inject_Z (2 ^ Z.max k 0) / inject_Z (2 ^ Z.max (- k) 0))%Q.

(** The exponent [e] of a positive rational: [2^e <= x < 2^(e+1)]. *)
Definition binade (x : Q) : Z :=
  let n := Qnum x in
  let d := Zpos (Qden x) in
  let e := Z.log2 n - Z.log2 d in
  if d * 2 ^ Z.max e 0 <=? n * 2 ^ Z.max (- e) 0 then e else e - 1.

(** The double nearest to a rational (IEEE 754 binary64, round to nearest,
    ties to even): 53 significant bits in the binade of [x], the spacing of
    the subnormals below [2^-1022].  The overflow to infinity is left out:
    the one user, the cast below, gives 0 from [2^31] on anyway. *)
Definition round_double (x : Q) : Q :=
  let k := 52 - Z.max (binade (Qabs x)) (-1022) in
  let r := Qshift (inject_Z (round_half_even (Qshift (Qabs x) k))) (- k) in
  if Qle_bool 0 x then r else (- r)%Q.

(** The conversion of a double to a 32-bit integer on x86-64 ([cvttsd2si]):
    the fraction is dropped, and what does not fit gives [-2^31]. *)
Definition int32_of_double (x : Q) : Z :=
  let n := py_int x in
  if (- 2 ^ 31 <=? n) && (n <? 2 ^ 31) then n else - 2 ^ 31.

(** The cast of one [float64] to [uint8], as numpy does it on x86-64: the
    double is converted to a 32-bit integer and its low byte is kept.  So
    the fraction is dropped, an integer of 32 bits is reduced modulo 256, and
    what does not fit in 32 bits or is not finite casts to 0. *)
Definition uint8_of_float (v : npfloat) : Z :=
  match v with
  | Finite x => int32_of_double (round_double x) mod 256
  | _ => 0
  end.

(** [a.astype(np.uint8)], as the rows of the [uint8] array. *)
Definition astype_uint8 (a : ndarray) : list (list (rgb Z)) :=
  match a with
  | Float64 rows => map (map (rgb_map uint8_of_float)) rows
  | UInt8 rows => rows
  end.

Definition np_clip_float (lo hi : Q) (v : npfloat) : npfloat :=
  match v with
  | Finite x => Finite (Qmin_b (Qmax_b x lo) hi)
  | PInf => Finite hi
  | NInf => Finite lo
  | NaN => NaN
  end.

(** [np.clip(a, lo, hi)] with Python integers [lo <= hi]. *)
Definition np_clip (a : ndarray) (lo hi : Z) : ndarray :=
  match a with
  | Float64 rows => Float64 (map (map (rgb_map (np_clip_float (inject_Z lo) (inject_Z hi)))) rows)
  | UInt8 rows => UInt8 (map (map (rgb_map (fun v => Z.min (Z.max v lo) hi))) rows)
  end.

(** [Image.fromarray] of a [uint8] array of shape [(h, w, 3)], and
    [np.array(img)[:, :, :3]] back: the same rows. *)
Definition image_fromarray (rows : list (list (rgb Z))) : image := rows.

(** The numeric value of every channel of an array, to compare arrays of
    different types as [np.array_equal] would. *)
Definition nd_values (a : ndarray) : list (list (rgb npfloat)) :=
  match a with
  | Float64 rows => rows
  | UInt8 rows => map (map (rgb_map (fun v => Finite (inject_Z v)))) rows
  end.

(** A float between 0 and 1. *)
Definition unit_value (v : npfloat) : Prop :=
  exists q, v = Finite q /\ (0 <= q)%Q /\ (q <= 1)%Q.

(** A float between [1/255] and 1. *)
Definition bright (v : npfloat) : Prop :=
  exists q, v = Finite q /\ (1 # 255 <= q)%Q /\ (q <= 1)%Q.

(** An array or image of [r] rows of [c] pixels. *)
Definition rect {A : Type} (r c : nat) (a : list (list A)) : Prop :=
  length a = r /\ Forall (fun row => length row = c) a.

(** Every channel of every pixel satisfies [P]. *)
Definition channels {A : Type} (P : A -> Prop) (a : list (list (rgb A))) : Prop :=
  Forall (Forall (rgb_all P)) a.

(** A byte that is not 0. *)
Definition byte_pos (v : Z) : Prop := 1 <= v <= 255.

(** ** Pillow's drawing *)

(** One call [draw.line(points, fill=fill, width=width)]. *)
Record stroke : Type := {
  s_points : list (Z * Z);
  s_fill : Z * Z * Z * Z;
  s_width : Z
}.

(** Pillow: [line_pixels xsize ysize points width] lists the pixels [(x, y)]
    that a line of that width through the points touches, in the order and
    as often as the rasterizer writes them; [gaussian_blur] is
    [ImageFilter.GaussianBlur]. *)
Class Pillow : Type := {
  line_pixels : nat -> nat -> list (Z * Z) -> Z -> list (nat * nat);
  gaussian_blur : Q -> image -> image
}.

(** [DIV255] and [BLEND] of Pillow's [ImagingUtils.h]; the result is stored
    in a byte. *)
Definition div255 (a : Z) : Z :=
  let tmp := a + 128 in Z.shiftr (Z.shiftr tmp 8 + tmp) 8.

Definition blend (mask in1 in2 : Z) : Z :=
  div255 (in1 * (255 - mask) + in2 * mask) mod 256.

(** A channel of an ink is clipped to a byte. *)
Definition clip8 (v : Z) : Z := Z.max 0 (Z.min 255 v).

(** A pixel written in mode RGBA on an RGB image: each channel is blended
    with the ink by the ink's alpha. *)
Definition blend_pixel (fill : Z * Z * Z * Z) (p : rgb Z) : rgb Z :=
  let '(r, g, b, a) := fill in
  let '(pr, pg, pb) := p in
  (blend (clip8 a) pr (clip8 r), blend (clip8 a) pg (clip8 g), blend (clip8 a) pb (clip8 b)).

Fixpoint update_nth {A : Type} (n : nat) (f : A -> A) (l : list A) : list A :=
  match l, n with
  | [], _ => []
  | a :: t, O => f a :: t
  | a :: t, S k => a :: update_nth k f t
  end.

(** The pixel [(x, y)] written with [f]; a position outside the image is
    not written. *)
Definition update_pixel (img : image) (xy : nat * nat) (f : rgb Z -> rgb Z) : image :=
  update_nth (snd xy) (update_nth (fst xy) f) img.

Section Drawing.

Context {PIL : Pillow}.

(** [draw.line] of a drawing context in mode RGBA on the image [img]. *)
Definition draw_line (img : image) (s : stroke) : image :=
  fold_left (fun im xy => update_pixel im xy (blend_pixel (s_fill s)))
    (line_pixels (length (hd [] img)) (length img) (s_points s) (s_width s)) img.

End Drawing.

(** ** Python's [random] and [np.sin] *)

(** The global generator of [random]: [random.random()] is a float of
    [[0, 1)] and [random._randbelow(n)] an integer of [[0, n)]. *)
Class PyRandom : Type := {
  py_state : Type;
  random_random : py_state -> Q * py_state;
  random_randbelow : Z -> py_state -> Z * py_state;
  random_random_unit : forall st, (0 <= fst (random_random st))%Q /\ (fst (random_random st) < 1)%Q;
  random_randbelow_below : forall n st, 0 < n -> 0 <= fst (random_randbelow n st) < n
}.

Class Trig : Type := {
  np_sin : Q -> Q
}.

(** A computation that reads the generator of [random]: it returns a value
    or raises, and leaves a state; [None] is a loop that was stopped when
    its fuel ran out. *)
Definition M {R : PyRandom} (A : Type) : Type := py_state -> option (result A * py_state).

Definition ret {R : PyRandom} {A : Type} (a : A) : M A := fun st => Some (Return a, st).

Definition raise {R : PyRandom} {A : Type} (e : exn) : M A := fun st => Some (Raise e, st).

Definition bind {R : PyRandom} {A B : Type} (m : M A) (k : A -> M B) : M B :=
  fun st =>
    match m st with
    | None => None
    | Some (Raise e, st') => Some (Raise e, st')
    | Some (Return a, st') => k a st'
    end.

Notation "x <- m ;; k" := (bind m (fun x => k))
  (at level 61, m at next level, right associativity).

Definition Qlt_bool (a b : Q) : bool := negb (Qle_bool b a).

Section Veins.

Context {R : PyRandom} {T : Trig} {PIL : Pillow}.

(** [random.uniform(a, b)] is [a + (b - a) * random()]. *)
Definition random_uniform (a b : Q) : M Q :=
  fun st => let (u, st') := random_random st in Some (Return (a + (b - a) * u)%Q, st').

(** [random.randint(a, b)] is [a + _randbelow(b - a + 1)], and raises
    [ValueError] on an empty range. *)
Definition random_randint (a b : Z) : M Z :=
  fun st =>
    if b <? a then Some (Raise ValueError, st)
    else let (k, st') := random_randbelow (b - a + 1) st in Some (Return (a + k), st').

(** The test of the [while] of line 57. *)
Definition walk_cond (width height : Z) (x y : Q) : bool :=
  Qlt_bool x (inject_Z (width + width / 4)) &&
  (Qle_bool 0 y && Qlt_bool y (inject_Z height)).

(** Lines 60-63: the new [x], [y] and [angle]. *)
Definition walk_step (x y angle : Q) : M (Q * Q * Q) :=
  d <- random_uniform (- (15 # 100)) (15 # 100) ;;
  let angle := (angle + d)%Q in
  dx <- random_uniform 15 35 ;;
  let x := (x + dx)%Q in
  k <- random_uniform 10 30 ;;
  let y := (y + np_sin angle * k)%Q in
  ret (x, y, angle).

(** The [while] loop of lines 57-63, run for at most [fuel] iterations. *)
Fixpoint vein_walk (fuel : nat) (width height : Z) (x y angle : Q) (points : list (Z * Z))
  : M (list (Z * Z)) :=
  if walk_cond width height x y then
    match fuel with
    | O => fun _ => None
    | S fuel' =>
        let points := points ++ [(py_int x, py_int y)] in
        xya <- walk_step x y angle ;;
        let '(x, y, angle) := xya in
        vein_walk fuel' width height x y angle points
    end
  else ret points.

(** Lines 48-70, one iteration of the [for] loop, up to the call of
    [draw.line]: the stroke to draw, or [None] when the path has fewer than
    two points.  The path itself is returned too. *)
Definition vein (fuel : nat) (width height : Z) (color : rgb Z) (thickness_range : Z * Z)
  : M (list (Z * Z) * option stroke) :=
  start_x <- random_randint ((- width) / 4) (width + width / 4) ;;
  start_y <- random_randint 0 height ;;
  angle <- random_uniform (- (1 # 2)) (1 # 2) ;;
  points <- vein_walk fuel width height (inject_Z start_x) (inject_Z start_y) angle [] ;;
  if (1 <? length points)%nat then
    thickness <- random_randint (fst thickness_range) (snd thickness_range) ;;
    opacity <- random_randint 30 120 ;;
    let '(r, g, b) := color in
    let vein_color := (r, g, b, opacity) in
    ret (points, Some {| s_points := points; s_fill := vein_color; s_width := thickness |})
  else ret (points, None).

(** The [for] loop of line 47: the image, and the calls of [draw.line] made
    so far. *)
Fixpoint veins_loop (n : nat) (fuel : nat) (width height : Z) (color : rgb Z)
  (thickness_range : Z * Z) (img : image) (calls : list stroke) : M (image * list stroke) :=
  match n with
  | O => ret (img, calls)
  | S n' =>
      v <- vein fuel width height color thickness_range ;;
      match snd v with
      | Some s => veins_loop n' fuel width height color thickness_range (draw_line img s) (calls ++ [s])
      | None => veins_loop n' fuel width height color thickness_range img calls
      end
  end.

(** The canvas of line 44. *)
Definition canvas_of (img_array : ndarray) : image :=
  image_fromarray (astype_uint8 (nd_mul img_array 255)).

(** [add_veins] with the list of the lines it drew. *)
Definition add_veins_calls (fuel : nat) (img_array : ndarray) (color : rgb Z) (num_veins : Z)
  (thickness_range : Z * Z) : M (image * list stroke) :=
  let '(height, width) := nd_shape img_array in
  let img := canvas_of img_array in
  veins_loop (Z.to_nat num_veins) fuel width height color thickness_range img [].

(** [add_veins(img_array, color, num_veins, thickness_range)]. *)
Definition add_veins (fuel : nat) (img_array : ndarray) (color : rgb Z) (num_veins : Z)
  (thickness_range : Z * Z) : M ndarray :=
  r <- add_veins_calls fuel img_array color num_veins thickness_range ;;
  ret (UInt8 (fst r)).

(** What the painter gives to [draw.line]: a path of at least two points,
    the colour with one opacity of [[30, 120]], and one width of the
    thickness range. *)
Definition stroke_ok (color : rgb Z) (thickness_range : Z * Z) (s : stroke) : Prop :=
  (2 <= length (s_points s))%nat /\
  (exists opacity,
     s_fill s = (let '(r, g, b) := color in (r, g, b, opacity)) /\ 30 <= opacity <= 120) /\
  fst thickness_range <= s_width s <= snd thickness_range.

(** The painter under the contract of the specification,
    [paint_veins(image, color, count, thickness_range, opacity_range)]: the
    source has no parameter for the opacity range, which is dropped. *)
Definition paint_veins (fuel : nat) (img_array : ndarray) (color : rgb Z) (count : Z)
  (thickness_range opacity_range : Z * Z) : M (image * list stroke) :=
  add_veins_calls fuel img_array color count thickness_range.

(** The stroke the specification describes: as [stroke_ok], with the opacity
    taken from the caller's range. *)
Definition spec_stroke_ok (color : rgb Z) (thickness_range opacity_range : Z * Z) (s : stroke)
  : Prop :=
  (2 <= length (s_points s))%nat /\
  (exists opacity,
     s_fill s = (let '(r, g, b) := color in (r, g, b, opacity)) /\
     fst opacity_range <= opacity <= snd opacity_range) /\
  fst thickness_range <= s_width s <= snd thickness_range.

(** Fuel that lets every walk on an image of that width finish. *)
Definition walk_fuel (width : Z) : nat :=
  Z.to_nat ((width + width / 4 - (- width) / 4) / 15 + 1).

End Veins.

(** ** The presets *)

Section Presets.

Context {RNG : NumPyRandom} {ND : NdImage} {R : PyRandom} {T : Trig} {PIL : Pillow}.

(** [np.ones((size, size, 3)) * np.array(color)]. *)
Definition np_full (size : Z) (color : rgb Q) : list (list (rgb npfloat)) :=
  repeat (repeat (rgb_map Finite color) (Z.to_nat size)) (Z.to_nat size).

(** [base += np.stack([noise * amp] * 3, axis=2)]. *)
Definition add_texture (base : list (list (rgb npfloat))) (noise : field) (amp : Q)
  : list (list (rgb npfloat)) :=
  zip_with (zip_with (fun p n => rgb_map (fun c => np_add c (np_scale n amp)) p)) base noise.

(** [generate_statuario(size)] up to the array that line 159 hands to
    [Image.fromarray].  The state in which numpy's generator is left is not
    returned: every later use seeds it first. *)
Definition statuario_array (fuel : nat) (nst : np_state) (size : Z) : M (list (list (rgb Z))) :=
  if size <? 0 then raise ValueError
  else
    let base := np_full size (97 # 100, 97 # 100, 98 # 100)%Q in
    match fst (create_seamless_noise nst size size 300) with
    | Raise e => raise e
    | Return noise =>
        let base := Float64 (add_texture base noise (2 # 100)) in
        base <- add_veins fuel base (140, 140, 145) 18 (3, 9) ;;
        base <- add_veins fuel base (170, 170, 175) 12 (1, 5) ;;
        ret (astype_uint8 (nd_mul (np_clip base 0 1) 255))
    end.

Definition generate_statuario (fuel : nat) (nst : np_state) (size : Z) : M image :=
  a <- statuario_array fuel nst size ;;
  let img := image_fromarray a in
  ret (gaussian_blur (5 # 10) img).

(** [generate_grey_emperador(size)], likewise. *)
Definition grey_emperador_array (fuel : nat) (nst : np_state) (size : Z) : M (list (list (rgb Z))) :=
  if size <? 0 then raise ValueError
  else
    let base := np_full size (75 # 100, 74 # 100, 73 # 100)%Q in
    match fst (create_seamless_noise nst size size 180) with
    | Raise e => raise e
    | Return noise =>
        let base := Float64 (add_texture base noise (8 # 100)) in
        base <- add_veins fuel base (100, 100, 105) 20 (2, 7) ;;
        base <- add_veins fuel base (200, 198, 195) 15 (1, 4) ;;
        ret (astype_uint8 (nd_mul (np_clip base 0 1) 255))
    end.

Definition generate_grey_emperador (fuel : nat) (nst : np_state) (size : Z) : M image :=
  a <- grey_emperador_array fuel nst size ;;
  let img := image_fromarray a in
  ret (gaussian_blur (6 # 10) img).

(** The recipe the two presets share: a base colour, the scale and the
    amplitude of the noise, and two layers of veins. *)
Definition preset_array (fuel : nat) (nst : np_state) (size : Z) (base_color : rgb Q)
  (scale amp : Q) (color1 : rgb Z) (count1 : Z) (thickness1 : Z * Z)
  (color2 : rgb Z) (count2 : Z) (thickness2 : Z * Z) : M (list (list (rgb Z))) :=
  if size <? 0 then raise ValueError
  else
    let base := np_full size base_color in
    match fst (create_seamless_noise nst size size scale) with
    | Raise e => raise e
    | Return noise =>
        let base := Float64 (add_texture base noise amp) in
        base <- add_veins fuel base color1 count1 thickness1 ;;
        base <- add_veins fuel base color2 count2 thickness2 ;;
        ret (astype_uint8 (nd_mul (np_clip base 0 1) 255))
    end.

(** The image whose every channel is 255. *)
Definition white_image (size : Z) : image :=
  repeat (repeat (255, 255, 255) (Z.to_nat size)) (Z.to_nat size).

(** The mean of the three channels over the pixels of an image. *)
Definition channel_sum (img : image) : Z :=
  fold_right Z.add 0 (map (fun p : rgb Z => let '(r, g, b) := p in r + g + b) (concat img)).

Definition mean_brightness (img : image) : Q :=
  (inject_Z (channel_sum img) / inject_Z (3 * Z.of_nat (length (concat img))))%Q.

End Presets.

(** ** The other presets *)

Section MorePresets.

Context {RNG : NumPyRandom} {ND : NdImage} {R : PyRandom} {T : Trig} {PIL : Pillow}.

(** [generate_white_carrara(size)] up to the array that line 91 hands to
    [Image.fromarray]. *)
Definition white_carrara_array (fuel : nat) (nst : np_state) (size : Z) : M (list (list (rgb Z))) :=
  if size <? 0 then raise ValueError
  else
    let base := np_full size (98 # 100, 96 # 100, 92 # 100)%Q in
    match fst (create_seamless_noise nst size size 200) with
    | Raise e => raise e
    | Return noise =>
        let base := Float64 (add_texture base noise (5 # 100)) in
        base <- add_veins fuel base (180, 170, 150) 25 (1, 4) ;;
        base <- add_veins fuel base (210, 200, 180) 15 (2, 6) ;;
        ret (astype_uint8 (nd_mul (np_clip base 0 1) 255))
    end.

Definition generate_white_carrara (fuel : nat) (nst : np_state) (size : Z) : M image :=
  a <- white_carrara_array fuel nst size ;;
  let img := image_fromarray a in
  ret (gaussian_blur (5 # 10) img).

(** [generate_calacatta_gold(size)], with its three layers of veins. *)
Definition calacatta_gold_array (fuel : nat) (nst : np_state) (size : Z) : M (list (list (rgb Z))) :=
  if size <? 0 then raise ValueError
  else
    let base := np_full size (99 # 100, 98 # 100, 96 # 100)%Q in
    match fst (create_seamless_noise nst size size 250) with
    | Raise e => raise e
    | Return noise =>
        let base := Float64 (add_texture base noise (3 # 100)) in
        base <- add_veins fuel base (200, 170, 110) 12 (4, 12) ;;
        base <- add_veins fuel base (180, 160, 120) 8 (6, 15) ;;
        base <- add_veins fuel base (160, 160, 165) 10 (2, 5) ;;
        ret (astype_uint8 (nd_mul (np_clip base 0 1) 255))
    end.

Definition generate_calacatta_gold (fuel : nat) (nst : np_state) (size : Z) : M image :=
  a <- calacatta_gold_array fuel nst size ;;
  let img := image_fromarray a in
  ret (gaussian_blur (7 # 10) img).

(** [generate_champagne_pearl(size)]. *)
Definition champagne_pearl_array (fuel : nat) (nst : np_state) (size : Z) : M (list (list (rgb Z))) :=
  if size <? 0 then raise ValueError
  else
    let base := np_full size (92 # 100, 88 # 100, 82 # 100)%Q in
    match fst (create_seamless_noise nst size size 150) with
    | Raise e => raise e
    | Return noise =>
        let base := Float64 (add_texture base noise (6 # 100)) in
        base <- add_veins fuel base (180, 160, 130) 22 (2, 6) ;;
        base <- add_veins fuel base (220, 210, 195) 18 (1, 3) ;;
        ret (astype_uint8 (nd_mul (np_clip base 0 1) 255))
    end.

Definition generate_champagne_pearl (fuel : nat) (nst : np_state) (size : Z) : M image :=
  a <- champagne_pearl_array fuel nst size ;;
  let img := image_fromarray a in
  ret (gaussian_blur (6 # 10) img).

End MorePresets.

(** A byte. *)
Definition byte (v : Z) : Prop := 0 <= v <= 255.

(** A byte that is 0 or 255. *)
Definition binary (v : Z) : Prop := v = 0 \/ v = 255.

(** A run that returns a square array of [size] rows whose every channel is
    0 or 255. *)
Definition returns_binary {R : PyRandom} (size : Z) (m : M (list (list (rgb Z))))
  (st : py_state) : Prop :=
  exists a st', m st = Some (Return a, st') /\
    rect (Z.to_nat size) (Z.to_nat size) a /\ channels binary a.

(** A point of a path lies between the left margin [-width//4] and the right
    bound [width + width//4], and inside the rows of the image. *)
Definition in_walk_bounds (width height : Z) (p : Z * Z) : Prop :=
  (- width) / 4 <= fst p < width + width / 4 /\ 0 <= snd p < height.

(** Each point of the path lies at least 14 columns to the right of the
    point before it. *)
Fixpoint steps_right (points : list (Z * Z)) : Prop :=
  match points with
  | p :: (q :: _) as rest => fst p + 14 <= fst q /\ steps_right rest
  | _ => True
  end.

(** The negative of a byte modulo 256: what the product with 255 makes of a
    [uint8]. *)
Definition uint8_neg (v : Z) : Z := (256 - v) mod 256.

(** ** Instances to run the synthesizer on concrete inputs *)

(** A linear congruential generator in the place of numpy's Mersenne
    Twister: the state is a number below [2^31], a sample is the next state
    over [2^31]. *)
Definition lcg_next (s : Z) : Z := (1103515245 * s + 12345) mod 2147483648.

Definition lcg_random : NumPyRandom := {|
  np_state := Z;
  np_random_seed := fun s => s mod 2147483648;
  np_random_sample := fun s => (Qmake (lcg_next s) 2147483648, lcg_next s)
|}.

(** A generator whose every sample is one half: every grid drawn from it is
    flat. *)
Definition flat_random : NumPyRandom := {|
  np_state := unit;
  np_random_seed := fun _ => tt;
  np_random_sample := fun s => ((1 # 2)%Q, s)
|}.

(** Upsampling by repetition in the place of the cubic spline: the entry
    [(i, j)] of the output is the entry [(i / zoom, j / zoom)] of the input. *)
Definition block_zoom : NdImage := {|
  spline_value := fun _ _ input zoom i j =>
    grid_nth input (Nat.div i (Z.to_nat zoom)) (Nat.div j (Z.to_nat zoom))
|}.

(** A generator of [random] that replays a script: each call takes the next
    number [z] of the script (0 when the script is over); [random()] is
    [(z mod 1000) / 1000] and [_randbelow(n)] is [z mod n]. *)
Definition script_head (st : list Z) : Z := hd 0 st.

Definition scripted_random : PyRandom := {|
  py_state := list Z;
  random_random := fun st => (Qmake (script_head st mod 1000) 1000, tl st);
  random_randbelow := fun n st => (script_head st mod n, tl st);
  random_random_unit := fun st =>
    ltac:(simpl; pose proof (Z.mod_pos_bound (script_head st) 1000 eq_refl);
          unfold Qle, Qlt; simpl; lia);
  random_randbelow_below := fun n st Hn =>
    ltac:(simpl; now apply Z.mod_pos_bound)
|}.

(** The identity in the place of the sine (they agree at 0, the angle of the
    scripted veins below); no theorem depends on the values of the sine. *)
Definition small_angle : Trig := {| np_sin := fun a => a |}.

(** A rasterizer that writes the points of the path that lie in the image,
    once each, and a blur that changes nothing. *)
Definition dots_pixels (xsize ysize : nat) (points : list (Z * Z)) (width : Z) : list (nat * nat) :=
  map (fun p => (Z.to_nat (fst p), Z.to_nat (snd p)))
    (filter (fun p => (0 <=? fst p) && (fst p <? Z.of_nat xsize) &&
                      (0 <=? snd p) && (snd p <? Z.of_nat ysize)) points).

Definition dots : Pillow := {|
  line_pixels := dots_pixels;
  gaussian_blur := fun _ img => img
|}.

(** A buffer of one row of 11 grey pixels. *)
Definition grey_row : ndarray :=
  Float64 [repeat (Finite (1 # 2), Finite (1 # 2), Finite (1 # 2)) 11].

(** The script of one vein on [grey_row]: it starts at [(-3, 0)] with angle
    0, steps by 15 without turning, and is drawn with thickness 2 and
    opacity 30. *)
Definition one_vein_script : list Z := [0; 0; 500; 500; 0; 0; 500; 0; 0; 0; 0].

(** A [uint8] buffer of two pixels, and a float buffer of 2 rows of 3
    pixels. *)
Definition two_bytes : list (list (rgb Z)) := [[(10, 200, 0); (255, 128, 1)]].

Definition small_buffer : ndarray :=
  Float64 (repeat (repeat (Finite (1 # 2), Finite (1 # 4), Finite 1) 3) 2).

(** * Properties of the noise synthesizer *)

Section NoiseFacts.

Context {RNG : NumPyRandom} {ND : NdImage}.

(** ** Shapes *)

Lemma rand_row_length n st : length (fst (rand_row n st)) = n.
Proof.
  revert st; induction n as [|n IH]; intros st; simpl; [reflexivity|].
  destruct (np_random_sample st) as [v st1].
  specialize (IH st1). destruct (rand_row n st1) as [vs st2]. simpl in *. now rewrite IH.
Qed.

Lemma np_random_rand_shape rows cols st :
  length (fst (np_random_rand rows cols st)) = rows /\
  row_width cols (fst (np_random_rand rows cols st)).
Proof.
  revert st; induction rows as [|n IH]; intros st; simpl.
  - split; [reflexivity | constructor].
  - pose proof (rand_row_length cols st) as Hr.
    destruct (rand_row cols st) as [r st1].
    specialize (IH st1). destruct (np_random_rand n cols st1) as [rs st2]. simpl in *.
    destruct IH as [IH1 IH2]. split; [now rewrite IH1 | now constructor].
Qed.

Lemma ndimage_zoom_rows input zoom order mode :
  length (ndimage_zoom input zoom order mode) = (length input * Z.to_nat zoom)%nat.
Proof. unfold ndimage_zoom. now rewrite length_map, length_seq. Qed.

Lemma ndimage_zoom_width input zoom order mode :
  row_width (length (hd [] input) * Z.to_nat zoom) (ndimage_zoom input zoom order mode).
Proof.
  unfold ndimage_zoom, row_width. apply Forall_forall. intros r Hr.
  apply in_map_iff in Hr as (i & <- & _). now rewrite length_map, length_seq.
Qed.

Lemma in_firstn {A : Type} (x : A) n l : In x (firstn n l) -> In x l.
Proof. intros H. rewrite <- (firstn_skipn n l). apply in_or_app. now left. Qed.

Lemma slice2_shape a height width rows cols :
  length a = rows -> row_width cols a ->
  (Z.to_nat height <= rows)%nat -> (Z.to_nat width <= cols)%nat ->
  length (slice2 a height width) = Z.to_nat height /\
  row_width (Z.to_nat width) (slice2 a height width).
Proof.
  intros Hl Hw Hh Hc. unfold slice2. split.
  - rewrite length_map, length_firstn. lia.
  - unfold row_width in *. apply Forall_forall. intros r Hr.
    apply in_map_iff in Hr as (r0 & <- & Hin).
    apply in_firstn in Hin. rewrite Forall_forall in Hw. specialize (Hw _ Hin).
    rewrite length_firstn. lia.
Qed.

Lemma py_int_true_divide h f :
  0 <= h -> 0 < f -> py_int (inject_Z h / inject_Z f) = h / f.
Proof.
  intros Hh Hf. destruct f as [|p|p]; try lia.
  unfold py_int, Qdiv, Qinv, Qmult, inject_Z. simpl.
  rewrite Z.mul_1_r. apply Z.quot_div_nonneg; lia.
Qed.

Lemma octave_grid_spec height width o :
  0 <= height -> 0 <= width -> 0 <= o ->
  fst (octave_grid height width o) = spec_octave_grid height width o.
Proof.
  intros Hh Hw Ho. unfold octave_grid, spec_octave_grid.
  assert (0 < 2 ^ o) by (apply Z.pow_pos_nonneg; lia).
  now rewrite !py_int_true_divide by lia.
Qed.

Lemma spec_octave_grid_shape height width o :
  length (spec_octave_grid height width o) = Z.to_nat (height / 2 ^ o + 2) /\
  row_width (Z.to_nat (width / 2 ^ o + 2)) (spec_octave_grid height width o).
Proof. unfold spec_octave_grid. apply np_random_rand_shape. Qed.

(** The upsampled grid covers the output: [(n / f + 2) * f >= n]. *)
Lemma upsampled_covers n f :
  0 <= n -> 0 < f -> (Z.to_nat n <= Z.to_nat (n / f + 2) * Z.to_nat f)%nat.
Proof.
  intros Hn Hf. pose proof (Z.div_pos n f Hn Hf) as Hq.
  rewrite <- Z2Nat.inj_mul by lia. apply Z2Nat.inj_le; try nia.
  pose proof (Z.mul_succ_div_gt n f Hf). nia.
Qed.

Lemma zip_with_length {A B C : Type} (f : A -> B -> C) l1 l2 :
  length l1 = length l2 -> length (zip_with f l1 l2) = length l1.
Proof.
  revert l2; induction l1 as [|a t IH]; intros [|b t2]; simpl; try discriminate; auto.
Qed.

Lemma zip_with_nth {A B C : Type} (f : A -> B -> C) l1 l2 i da db dc :
  length l1 = length l2 -> (i < length l1)%nat ->
  nth i (zip_with f l1 l2) dc = f (nth i l1 da) (nth i l2 db).
Proof.
  revert l2 i; induction l1 as [|a t IH]; intros [|b t2] i Hl Hi; simpl in *; try lia.
  destruct i; [reflexivity | apply IH; lia].
Qed.

Lemma row_width_nth c g i : row_width c g -> (i < length g)%nat -> length (nth i g []) = c.
Proof.
  unfold row_width. rewrite Forall_forall. intros H Hi. apply H, nth_In, Hi.
Qed.

Lemma grid_add_shape a b r c :
  length a = r -> row_width c a -> length b = r -> row_width c b ->
  length (grid_add a b) = r /\ row_width c (grid_add a b).
Proof.
  intros Ha Hwa Hb Hwb. unfold grid_add. split.
  - rewrite zip_with_length; congruence.
  - unfold row_width in *. revert r b Ha Hb Hwb.
    induction Hwa as [|ra ta Hra _ IH]; intros r [|rb tb] Ha Hb Hwb; simpl; constructor.
    + inversion Hwb; subst. rewrite zip_with_length; congruence.
    + inversion Hwb; subst. simpl in *. eapply IH; eauto.
Qed.

Lemma grid_add_nth a b r c i j :
  length a = r -> row_width c a -> length b = r -> row_width c b ->
  (i < r)%nat -> (j < c)%nat ->
  grid_nth (grid_add a b) i j = (grid_nth a i j + grid_nth b i j)%Q.
Proof.
  intros Ha Hwa Hb Hwb Hi Hj. unfold grid_nth, grid_add.
  rewrite (zip_with_nth _ a b i [] [] []) by lia.
  apply zip_with_nth.
  - rewrite !(row_width_nth c); auto; lia.
  - rewrite (row_width_nth c); auto; lia.
Qed.

Lemma grid_scale_shape a amp r c :
  length a = r -> row_width c a ->
  length (grid_scale a amp) = r /\ row_width c (grid_scale a amp).
Proof.
  intros Ha Hw. unfold grid_scale. split; [now rewrite length_map|].
  unfold row_width in *. rewrite Forall_forall in *. intros x Hx.
  apply in_map_iff in Hx as (x0 & <- & Hx0). rewrite length_map. auto.
Qed.

Lemma grid_scale_nth a amp i j :
  (i < length a)%nat -> (j < length (nth i a []))%nat ->
  grid_nth (grid_scale a amp) i j = (grid_nth a i j * amp)%Q.
Proof.
  intros Hi Hj. unfold grid_nth, grid_scale.
  set (f := fun v => (v * amp)%Q).
  rewrite (nth_indep _ [] (map f [])) by now rewrite length_map.
  rewrite (map_nth (map f)).
  rewrite (nth_indep _ 0%Q (f 0%Q)) by now rewrite length_map.
  now rewrite (map_nth f).
Qed.

Lemma slice2_nth a height width i j :
  (i < Z.to_nat height)%nat -> (j < Z.to_nat width)%nat -> (i < length a)%nat ->
  grid_nth (slice2 a height width) i j = grid_nth a i j.
Proof.
  intros Hi Hj Hl. unfold grid_nth, slice2.
  rewrite (nth_indep _ [] (firstn (Z.to_nat width) [])).
  - rewrite (map_nth (firstn (Z.to_nat width))), !nth_firstn.
    apply Nat.ltb_lt in Hi, Hj. now rewrite Hi, Hj.
  - rewrite length_map, length_firstn. lia.
Qed.

Lemma ndimage_zoom_nth input zoom order mode i j :
  (i < length input * Z.to_nat zoom)%nat ->
  (j < length (hd [] input) * Z.to_nat zoom)%nat ->
  grid_nth (ndimage_zoom input zoom order mode) i j = spline_value order mode input zoom i j.
Proof.
  intros Hi Hj. unfold grid_nth, ndimage_zoom.
  set (cols := (length (hd [] input) * Z.to_nat zoom)%nat) in *.
  set (rows := (length input * Z.to_nat zoom)%nat) in *.
  set (row := fun i0 => map (fun j0 => spline_value order mode input zoom i0 j0) (seq 0 cols)).
  rewrite (nth_indep _ [] (row 0%nat)) by now rewrite length_map, length_seq.
  rewrite (map_nth row), seq_nth by assumption. unfold row. simpl.
  set (cell := fun j0 => spline_value order mode input zoom i j0).
  rewrite (nth_indep _ 0%Q (cell 0%nat)) by now rewrite length_map, length_seq.
  rewrite (map_nth cell), seq_nth by assumption. reflexivity.
Qed.

Lemma np_zeros_shape height width :
  length (np_zeros height width) = Z.to_nat height /\
  row_width (Z.to_nat width) (np_zeros height width).
Proof.
  unfold np_zeros. split; [apply repeat_length|].
  apply Forall_forall. intros r Hr. apply repeat_spec in Hr. subst. apply repeat_length.
Qed.

Lemma np_zeros_nth height width i j : grid_nth (np_zeros height width) i j = 0%Q.
Proof.
  unfold grid_nth, np_zeros.
  destruct (Nat.lt_ge_cases i (Z.to_nat height)) as [Hi|Hi].
  - rewrite nth_repeat_lt by assumption.
    destruct (Nat.lt_ge_cases j (Z.to_nat width)) as [Hj|Hj].
    + now rewrite nth_repeat_lt.
    + apply nth_overflow. now rewrite repeat_length.
  - rewrite (nth_overflow (repeat _ _) []) by now rewrite repeat_length. now destruct j.
Qed.

(** ** The loop over the octaves *)

Lemma octave_step_layer height width acc o :
  octave_step height width acc o =
  (grid_add (fst acc) (octave_layer height width o), snd (octave_grid height width o)).
Proof.
  unfold octave_step, octave_layer. now destruct (octave_grid height width o).
Qed.

Lemma hd_row_width c (g : grid) : row_width c g -> (0 < length g)%nat -> length (hd [] g) = c.
Proof. intros Hw Hl. destruct g; simpl in *; [lia | now inversion Hw]. Qed.

(** The upsampled grid of an octave, before it is cut to the output size, has
    at least [height] rows and [width] columns. *)
Lemma octave_upsampled_shape height width o :
  0 <= height -> 0 <= width -> 0 <= o ->
  let g := fst (octave_grid height width o) in
  length g = Z.to_nat (height / 2 ^ o + 2) /\
  length (hd [] g) = Z.to_nat (width / 2 ^ o + 2) /\
  (Z.to_nat height <= length g * Z.to_nat (2 ^ o))%nat /\
  (Z.to_nat width <= length (hd [] g) * Z.to_nat (2 ^ o))%nat.
Proof.
  intros Hh Hw Ho g. subst g. rewrite octave_grid_spec by assumption.
  destruct (spec_octave_grid_shape height width o) as [Hr Hc].
  assert (Hf : 0 < 2 ^ o) by (apply Z.pow_pos_nonneg; lia).
  pose proof (Z.div_pos height _ Hh Hf). pose proof (Z.div_pos width _ Hw Hf).
  assert (Hhd : length (hd [] (spec_octave_grid height width o)) = Z.to_nat (width / 2 ^ o + 2))
    by (apply hd_row_width; [assumption | lia]).
  rewrite Hr, Hhd. repeat split; auto using upsampled_covers.
Qed.

(** No row or column is lost when the layer is added to the accumulated
    array: the layer has the shape of the output. *)
Lemma octave_layer_shape height width o :
  0 <= height -> 0 <= width -> 0 <= o ->
  length (octave_layer height width o) = Z.to_nat height /\
  row_width (Z.to_nat width) (octave_layer height width o).
Proof.
  intros Hh Hw Ho. unfold octave_layer.
  destruct (octave_upsampled_shape height width o Hh Hw Ho) as (_ & _ & Hrows & Hcols).
  cbv zeta.
  set (g := fst (octave_grid height width o)) in *.
  destruct (slice2_shape (ndimage_zoom g (2 ^ o) 3 Wrap) height width _ _
              (ndimage_zoom_rows g (2 ^ o) 3 Wrap) (ndimage_zoom_width g (2 ^ o) 3 Wrap)
              Hrows Hcols) as [H1 H2].
  now apply grid_scale_shape.
Qed.

Lemma octave_layer_nth height width o i j :
  0 <= height -> 0 <= width -> 0 <= o ->
  (i < Z.to_nat height)%nat -> (j < Z.to_nat width)%nat ->
  grid_nth (octave_layer height width o) i j =
  (spline_value 3 Wrap (fst (octave_grid height width o)) (2 ^ o) i j * (1 / inject_Z (2 ^ o)))%Q.
Proof.
  intros Hh Hw Ho Hi Hj. unfold octave_layer. cbv zeta.
  destruct (octave_upsampled_shape height width o Hh Hw Ho) as (_ & _ & Hrows & Hcols).
  set (g := fst (octave_grid height width o)) in *.
  destruct (slice2_shape (ndimage_zoom g (2 ^ o) 3 Wrap) height width _ _
              (ndimage_zoom_rows g (2 ^ o) 3 Wrap) (ndimage_zoom_width g (2 ^ o) 3 Wrap)
              Hrows Hcols) as [H1 H2].
  rewrite grid_scale_nth.
  - rewrite slice2_nth; try assumption.
    + rewrite ndimage_zoom_nth by lia. reflexivity.
    + rewrite ndimage_zoom_rows. lia.
  - lia.
  - rewrite (row_width_nth (Z.to_nat width)); auto; lia.
Qed.

Lemma fold_octaves_sum height width os acc :
  0 <= height -> 0 <= width -> Forall (fun o => 0 <= o) os ->
  length (fst acc) = Z.to_nat height -> row_width (Z.to_nat width) (fst acc) ->
  let r := fold_left (octave_step height width) os acc in
  length (fst r) = Z.to_nat height /\
  row_width (Z.to_nat width) (fst r) /\
  forall i j, (i < Z.to_nat height)%nat -> (j < Z.to_nat width)%nat ->
    (grid_nth (fst r) i j ==
     grid_nth (fst acc) i j + fold_right Qplus 0 (map (spec_octave_value height width i j) os))%Q.
Proof.
  intros Hh Hw Hos. revert acc.
  induction Hos as [|o os Ho _ IH]; intros acc Hl Hrw; simpl.
  - repeat split; auto. intros i j _ _. simpl. symmetry. apply Qplus_0_r.
  - rewrite octave_step_layer.
    destruct (octave_layer_shape height width o Hh Hw Ho) as [Ll Lw].
    destruct (grid_add_shape _ _ _ _ Hl Hrw Ll Lw) as [Al Aw].
    specialize (IH (grid_add (fst acc) (octave_layer height width o),
                    snd (octave_grid height width o)) Al Aw).
    destruct IH as (IH1 & IH2 & IH3). repeat split; auto.
    intros i j Hi Hj. rewrite (IH3 i j Hi Hj). simpl fst.
    rewrite (grid_add_nth _ _ _ _ i j Hl Hrw Ll Lw Hi Hj).
    rewrite octave_layer_nth by assumption.
    unfold spec_octave_value at 2. rewrite octave_grid_spec by assumption. ring.
Qed.

Lemma accumulate_octaves_state_irrelevant st1 st2 height width :
  accumulate_octaves st1 height width = accumulate_octaves st2 height width.
Proof.
  unfold accumulate_octaves. change (py_range 6) with [0; 1; 2; 3; 4; 5].
  cbn [fold_left]. now rewrite !(octave_step_layer height width (_, _) 0).
Qed.

(** The loop of lines 22-35 against the specification's sum. *)
Lemma accumulate_octaves_spec st height width :
  0 <= height -> 0 <= width ->
  let noise := fst (accumulate_octaves st height width) in
  Forall (fun o =>
            fst (octave_grid height width o) = spec_octave_grid height width o /\
            length (spec_octave_grid height width o) = Z.to_nat (height / 2 ^ o + 2) /\
            row_width (Z.to_nat (width / 2 ^ o + 2)) (spec_octave_grid height width o))
         (py_range 6) /\
  length noise = Z.to_nat height /\
  row_width (Z.to_nat width) noise /\
  forall i j, (i < Z.to_nat height)%nat -> (j < Z.to_nat width)%nat ->
    (grid_nth noise i j == spec_noise_sum height width i j)%Q.
Proof.
  intros Hh Hw noise.
  assert (Hos : Forall (fun o => 0 <= o) (py_range 6)) by (repeat constructor; discriminate).
  split.
  - apply Forall_forall. intros o Ho. rewrite Forall_forall in Hos. specialize (Hos o Ho).
    split; [now apply octave_grid_spec | apply spec_octave_grid_shape].
  - destruct (np_zeros_shape height width) as [Zl Zw].
    destruct (fold_octaves_sum height width (py_range 6) (np_zeros height width, st)
                Hh Hw Hos Zl Zw) as (H1 & H2 & H3).
    repeat split; try assumption.
    intros i j Hi Hj. subst noise. unfold accumulate_octaves. rewrite (H3 i j Hi Hj).
    simpl fst. rewrite np_zeros_nth. unfold spec_noise_sum.
    change (py_range 6) with [0; 1; 2; 3; 4; 5]. apply Qplus_0_l.
Qed.

Lemma create_seamless_noise_normalize st width height scale :
  0 <= height -> 0 <= width ->
  fst (create_seamless_noise st width height scale) =
  normalize (fst (accumulate_octaves st height width)).
Proof.
  intros Hh Hw. unfold create_seamless_noise, np_linspace.
  destruct (Z.ltb_spec width 0); [lia|]. destruct (Z.ltb_spec height 0); [lia|].
  now destruct (accumulate_octaves st height width).
Qed.

(** C3: for every width and height and any two scale values, the synthesizer
    returns the same noise field (and leaves the generator in the same
    state): the scale only enters the two coordinate arrays of lines 15-16,
    which the octave synthesis never reads. *)
Theorem create_seamless_noise_scale_irrelevant st width height (s1 s2 : Q) :
  create_seamless_noise st width height s1 = create_seamless_noise st width height s2.
Proof.
  unfold create_seamless_noise, np_linspace.
  destruct (width <? 0); [reflexivity|].
  destruct (height <? 0); reflexivity.
Qed.

(** C4: the noise field does not depend on the state in which the call finds
    numpy's global generator, so two calls with the same width, height and
    scale return identical fields, the second of two consecutive calls
    included: every octave seeds the generator from its index before it
    draws. *)
Theorem create_seamless_noise_deterministic st1 st2 width height scale :
  fst (create_seamless_noise st1 width height scale) =
  fst (create_seamless_noise st2 width height scale) /\
  fst (create_seamless_noise (snd (create_seamless_noise st1 width height scale))
         width height scale) =
  fst (create_seamless_noise st1 width height scale).
Proof.
  assert (H : forall sa sb,
             fst (create_seamless_noise sa width height scale) =
             fst (create_seamless_noise sb width height scale)).
  { intros sa sb. unfold create_seamless_noise.
    destruct (np_linspace 0 scale width); [reflexivity|].
    destruct (np_linspace 0 scale height); [reflexivity|].
    rewrite (accumulate_octaves_state_irrelevant sa sb).
    now destruct (accumulate_octaves sb height width). }
  split; apply H.
Qed.

(** C6: the synthesizer sums exactly six octaves, [o = 0..5].  Octave [o]
    draws, after seeding from its index, a random grid of [height/2^o + 2]
    rows and [width/2^o + 2] columns, upsamples it by the frequency factor
    [2^o] with order 3 (cubic) and mode wrap, and adds it weighted by the
    amplitude [1/2^o]: the array handed to the rescale step has the shape of
    the output and at every position the value [spec_noise_sum] gives. *)
Theorem create_seamless_noise_octave_sum st width height scale :
  0 <= height -> 0 <= width ->
  let noise := fst (accumulate_octaves st height width) in
  fst (create_seamless_noise st width height scale) = normalize noise /\
  py_range 6 = [0; 1; 2; 3; 4; 5] /\
  Forall (fun o =>
            fst (octave_grid height width o) = spec_octave_grid height width o /\
            length (spec_octave_grid height width o) = Z.to_nat (height / 2 ^ o + 2) /\
            row_width (Z.to_nat (width / 2 ^ o + 2)) (spec_octave_grid height width o))
         (py_range 6) /\
  length noise = Z.to_nat height /\
  row_width (Z.to_nat width) noise /\
  forall i j, (i < Z.to_nat height)%nat -> (j < Z.to_nat width)%nat ->
    (grid_nth noise i j == spec_noise_sum height width i j)%Q.
Proof.
  intros Hh Hw noise.
  split; [now apply create_seamless_noise_normalize|].
  split; [reflexivity|]. now apply accumulate_octaves_spec.
Qed.

(** ** Minimum, maximum and the rescale *)

Lemma Qmin_b_spec a b : (Qmin_b a b <= a)%Q /\ (Qmin_b a b <= b)%Q /\ (Qmin_b a b = a \/ Qmin_b a b = b).
Proof.
  unfold Qmin_b. destruct (Qle_bool a b) eqn:E.
  - apply Qle_bool_iff in E. repeat split; auto. apply Qle_refl.
  - assert (~ (a <= b)%Q) by (rewrite <- Qle_bool_iff; congruence).
    repeat split; auto; [apply Qlt_le_weak, Qnot_le_lt; assumption | apply Qle_refl].
Qed.

Lemma Qmax_b_spec a b : (a <= Qmax_b a b)%Q /\ (b <= Qmax_b a b)%Q /\ (Qmax_b a b = a \/ Qmax_b a b = b).
Proof.
  unfold Qmax_b. destruct (Qle_bool a b) eqn:E.
  - apply Qle_bool_iff in E. repeat split; auto. apply Qle_refl.
  - assert (~ (a <= b)%Q) by (rewrite <- Qle_bool_iff; congruence).
    repeat split; auto; [apply Qle_refl | apply Qlt_le_weak, Qnot_le_lt; assumption].
Qed.

Lemma fold_min_spec vs v :
  let m := fold_left Qmin_b vs v in
  In m (v :: vs) /\ forall x, In x (v :: vs) -> (m <= x)%Q.
Proof.
  revert v; induction vs as [|a vs IH]; intros v; simpl.
  - split; [now left|]. intros x [<-|[]]. apply Qle_refl.
  - destruct (IH (Qmin_b v a)) as [Hin Hle]. simpl in Hin.
    destruct (Qmin_b_spec v a) as (Hv & Ha & Hc). split.
    + destruct Hin as [Hin|Hin]; [|now right; right].
      destruct Hc as [Hc|Hc]; rewrite Hc in *; [now left | now right; left].
    + intros x [<-|[<-|Hx]].
      * eapply Qle_trans; [apply Hle; now left | assumption].
      * eapply Qle_trans; [apply Hle; now left | assumption].
      * apply Hle. now right.
Qed.

Lemma fold_max_spec vs v :
  let m := fold_left Qmax_b vs v in
  In m (v :: vs) /\ forall x, In x (v :: vs) -> (x <= m)%Q.
Proof.
  revert v; induction vs as [|a vs IH]; intros v; simpl.
  - split; [now left|]. intros x [<-|[]]. apply Qle_refl.
  - destruct (IH (Qmax_b v a)) as [Hin Hle]. simpl in Hin.
    destruct (Qmax_b_spec v a) as (Hv & Ha & Hc). split.
    + destruct Hin as [Hin|Hin]; [|now right; right].
      destruct Hc as [Hc|Hc]; rewrite Hc in *; [now left | now right; left].
    + intros x [<-|[<-|Hx]].
      * eapply Qle_trans; [eassumption | apply Hle; now left].
      * eapply Qle_trans; [eassumption | apply Hle; now left].
      * apply Hle. now right.
Qed.

Lemma np_min_spec g x :
  In x (flat g) ->
  exists mn, np_min g = Some mn /\ In mn (flat g) /\ forall v, In v (flat g) -> (mn <= v)%Q.
Proof.
  unfold np_min. destruct (flat g) as [|v vs]; [intros []|]. intros _.
  exists (fold_left Qmin_b vs v). split; [reflexivity | apply fold_min_spec].
Qed.

Lemma np_max_spec g x :
  In x (flat g) ->
  exists mx, np_max g = Some mx /\ In mx (flat g) /\ forall v, In v (flat g) -> (v <= mx)%Q.
Proof.
  unfold np_max. destruct (flat g) as [|v vs]; [intros []|]. intros _.
  exists (fold_left Qmax_b vs v). split; [reflexivity | apply fold_max_spec].
Qed.

Lemma np_true_divide_zero_zero a b : (a == 0)%Q -> (b == 0)%Q -> np_true_divide a b = NaN.
Proof.
  intros Ha Hb. unfold np_true_divide.
  apply Qeq_bool_iff in Ha, Hb. now rewrite Ha, Hb.
Qed.

Lemma np_true_divide_finite a b : ~ (b == 0)%Q -> np_true_divide a b = Finite (a / b).
Proof.
  intros Hb. unfold np_true_divide. destruct (Qeq_bool b 0) eqn:E; [|reflexivity].
  apply Qeq_bool_iff in E. contradiction.
Qed.

Lemma in_field_entries (f : Q -> npfloat) (g : grid) v :
  In v (concat (map (map f) g)) <-> exists x, In x (flat g) /\ v = f x.
Proof.
  unfold flat. rewrite <- concat_map, in_map_iff. split; intros (x & H1 & H2); eauto.
Qed.

Lemma normalize_inv noise f :
  normalize noise = Return f -> exists g, f = map (map g) noise.
Proof.
  unfold normalize. destruct (np_min noise) as [mn|]; [|discriminate].
  destruct (np_max noise) as [mx|]; [|discriminate].
  intros H. inversion H. eauto.
Qed.

(** Outside the flat case the rescale is the affine map that sends the
    minimum to 0 and the maximum to 1. *)
Lemma normalize_range noise a b :
  In a (flat noise) -> In b (flat noise) -> (a < b)%Q ->
  exists f, normalize noise = Return f /\
    length f = length noise /\
    (forall v, In v (concat f) -> exists q, v = Finite q /\ (0 <= q <= 1)%Q) /\
    (exists q, In (Finite q) (concat f) /\ (q == 0)%Q) /\
    (exists q, In (Finite q) (concat f) /\ (q == 1)%Q).
Proof.
  intros Ha Hb Hab. unfold normalize.
  destruct (np_min_spec noise a Ha) as (mn & -> & Hmn & Hmin).
  destruct (np_max_spec noise a Ha) as (mx & -> & Hmx & Hmax).
  assert (Hlt : (mn < mx)%Q).
  { apply Qle_lt_trans with a; [auto|]. apply Qlt_le_trans with b; auto. }
  assert (Hd : ~ (mx - mn == 0)%Q) by lra.
  eexists. split; [reflexivity|]. split; [now rewrite length_map|]. repeat split.
  - intros v Hv. apply in_field_entries in Hv as (x & Hx & ->).
    rewrite np_true_divide_finite by assumption. eexists. split; [reflexivity|].
    specialize (Hmin x Hx). specialize (Hmax x Hx). split.
    + apply Qle_shift_div_l; lra.
    + apply Qle_shift_div_r; lra.
  - exists ((mn - mn) / (mx - mn))%Q. split.
    + apply in_field_entries. exists mn. split; [assumption|].
      now rewrite np_true_divide_finite.
    + field. lra.
  - exists ((mx - mn) / (mx - mn))%Q. split.
    + apply in_field_entries. exists mx. split; [assumption|].
      now rewrite np_true_divide_finite.
    + field. lra.
Qed.

(** In the flat case the rescale divides zero by zero at every position. *)
Lemma normalize_flat noise k x :
  In x (flat noise) -> (forall v, In v (flat noise) -> (v == k)%Q) ->
  exists f, normalize noise = Return f /\
    length f = length noise /\
    (forall v, In v (concat f) -> v = NaN).
Proof.
  intros Hx Hk. unfold normalize.
  destruct (np_min_spec noise x Hx) as (mn & -> & Hmn & _).
  destruct (np_max_spec noise x Hx) as (mx & -> & Hmx & _).
  eexists. split; [reflexivity|]. split; [now rewrite length_map|].
  intros v Hv. apply in_field_entries in Hv as (y & Hy & ->).
  pose proof (Hk _ Hmn). pose proof (Hk _ Hmx). pose proof (Hk _ Hy).
  apply np_true_divide_zero_zero; lra.
Qed.

(** ** Entries and positions *)

Lemma zip_with_length_le {A B C : Type} (f : A -> B -> C) l1 l2 :
  (length (zip_with f l1 l2) <= length l1)%nat.
Proof.
  revert l2; induction l1 as [|a t IH]; intros [|b t2]; simpl; try lia.
  specialize (IH t2). lia.
Qed.

Lemma grid_add_within r c a b : within r c a -> within r c (grid_add a b).
Proof.
  intros [Hl Hw]. unfold grid_add. split.
  - pose proof (zip_with_length_le (zip_with Qplus) a b). lia.
  - clear Hl. revert b. induction Hw as [|ra ta Hra _ IH]; intros [|rb tb]; simpl; constructor.
    + pose proof (zip_with_length_le Qplus ra rb). lia.
    + apply IH.
Qed.

Lemma fold_octaves_within r c height width os acc :
  within r c (fst acc) -> within r c (fst (fold_left (octave_step height width) os acc)).
Proof.
  revert acc; induction os as [|o os IH]; intros acc H; simpl; [assumption|].
  apply IH. rewrite octave_step_layer. now apply grid_add_within.
Qed.

Lemma within_entry r c g v : within r c g -> In v (flat g) -> (0 < r)%nat /\ (0 < c)%nat.
Proof.
  intros [Hl Hw] Hv. unfold flat in Hv. apply in_concat in Hv as (row & Hrow & Hv).
  rewrite Forall_forall in Hw. specialize (Hw row Hrow).
  destruct g; [contradiction|]. destruct row; [contradiction|]. simpl in *. lia.
Qed.

(** The accumulated array has an entry only when both sizes are positive. *)
Lemma accumulate_octaves_entry st height width v :
  In v (flat (fst (accumulate_octaves st height width))) -> 0 < height /\ 0 < width.
Proof.
  intros Hv.
  assert (W : within (Z.to_nat height) (Z.to_nat width) (np_zeros height width)).
  { destruct (np_zeros_shape height width) as [Hl Hw]. split; [lia|].
    unfold row_width in Hw. eapply Forall_impl; [|exact Hw]. simpl. intros; lia. }
  apply (fold_octaves_within _ _ height width (py_range 6) (np_zeros height width, st)) in W.
  destruct (within_entry _ _ _ _ W Hv). lia.
Qed.

Lemma in_flat_nth r c g v :
  length g = r -> row_width c g -> In v (flat g) ->
  exists i j, (i < r)%nat /\ (j < c)%nat /\ v = grid_nth g i j.
Proof.
  intros Hl Hw Hv. unfold flat in Hv. apply in_concat in Hv as (row & Hrow & Hv).
  apply (In_nth _ _ []) in Hrow as (i & Hi & Hrow).
  apply (In_nth _ _ 0%Q) in Hv as (j & Hj & Hv).
  exists i, j. unfold grid_nth. rewrite Hrow.
  rewrite <- Hrow, (row_width_nth c) in Hj by assumption. repeat split; auto; lia.
Qed.

Lemma nth_in_flat g i j :
  (i < length g)%nat -> (j < length (nth i g []))%nat -> In (grid_nth g i j) (flat g).
Proof.
  intros Hi Hj. unfold flat, grid_nth. apply in_concat.
  exists (nth i g []). split; apply nth_In; assumption.
Qed.

(** C5, as the code has it: for every scale, when the summed octaves are not
    flat (two of their entries differ), the synthesizer returns a field whose
    every value is a finite number of [[0, 1]], with an entry equal to 0
    (where the sum is least) and an entry equal to 1 (where it is
    greatest).  The flat case is wider than flat octave grids, see
    [one_pixel_noise_nan]. *)
Theorem create_seamless_noise_unit_range st width height scale a b :
  let noise := fst (accumulate_octaves st height width) in
  In a (flat noise) -> In b (flat noise) -> (a < b)%Q ->
  exists f, fst (create_seamless_noise st width height scale) = Return f /\
    (forall v, In v (concat f) -> exists q, v = Finite q /\ (0 <= q <= 1)%Q) /\
    (exists q, In (Finite q) (concat f) /\ (q == 0)%Q) /\
    (exists q, In (Finite q) (concat f) /\ (q == 1)%Q).
Proof.
  intros noise Ha Hb Hab.
  destruct (accumulate_octaves_entry st height width a Ha) as [Hh Hw].
  rewrite create_seamless_noise_normalize by lia. fold noise.
  destruct (normalize_range noise a b Ha Hb Hab) as (f & Hf & _ & H1 & H2 & H3).
  exists f. auto.
Qed.

(** C1, as the code has it: the rescale step has no guard.  What it divides
    by is the range of the summed octaves, so the degenerate case is a flat
    sum (all its entries equal), whatever the octave grids are: there the
    synthesizer does not raise, the division is zero by zero at every
    position, and the field it returns has the shape of the output and holds
    [NaN] everywhere; it is not uniform 0.5. *)
Theorem create_seamless_noise_flat_sum st width height scale x :
  let noise := fst (accumulate_octaves st height width) in
  In x (flat noise) -> (forall v, In v (flat noise) -> (v == x)%Q) ->
  exists f, fst (create_seamless_noise st width height scale) = Return f /\
    rect (Z.to_nat height) (Z.to_nat width) f /\
    (forall v, In v (concat f) -> v = NaN) /\
    ~ uniform_half f.
Proof.
  intros noise Hin Hflat.
  destruct (accumulate_octaves_entry st height width x Hin) as [Hh Hw].
  rewrite create_seamless_noise_normalize by lia. fold noise.
  destruct (accumulate_octaves_spec st height width ltac:(lia) ltac:(lia)) as (_ & Hl & Hrw & _).
  cbv zeta in Hl, Hrw. fold noise in Hl, Hrw.
  destruct (normalize_flat noise x x Hin Hflat) as (f & Hf & _ & Hnan).
  exists f. split; [exact Hf|]. destruct (normalize_inv noise f Hf) as [g Hg]. subst f.
  split; [|split].
  - split; [now rewrite length_map|].
    apply Forall_forall. intros row Hrow. apply in_map_iff in Hrow as (r & <- & Hr).
    rewrite length_map. unfold row_width in Hrw. rewrite Forall_forall in Hrw. now apply Hrw.
  - exact Hnan.
  - intros Hhalf.
    assert (Hv : In (g x) (concat (map (map g) noise))) by (apply in_field_entries; eauto).
    destruct (Hhalf _ Hv) as (q & Hq & _). rewrite (Hnan _ Hv) in Hq. discriminate.
Qed.

(** The flat case is met without any flat grid: a field of one pixel has
    its minimum equal to its maximum, and the synthesizer returns [[nan]]
    whatever the generator and the upsampling. *)
Lemma one_pixel_noise_nan st scale :
  fst (create_seamless_noise st 1 1 scale) = Return [[NaN]].
Proof.
  rewrite create_seamless_noise_normalize by lia.
  destruct (accumulate_octaves_spec st 1 1 ltac:(lia) ltac:(lia)) as (_ & Hl & Hw & _).
  cbv zeta in Hl, Hw. change (Z.to_nat 1) with 1%nat in Hl, Hw.
  destruct (fst (accumulate_octaves st 1 1)) as [|row [|]]; try discriminate.
  inversion Hw as [|? ? Hrow _]; subst.
  destruct row as [|v [|]]; try discriminate.
  unfold normalize, np_min, np_max. simpl.
  rewrite np_true_divide_zero_zero; [reflexivity | ring | ring].
Qed.

End NoiseFacts.

(** ** The synthesizer on concrete inputs *)

Lemma constant_grid_nth c g cols i j :
  row_width cols g -> constant_grid c g -> (i < length g)%nat -> (j < cols)%nat ->
  (grid_nth g i j == c)%Q.
Proof.
  intros Hw Hc Hi Hj. unfold constant_grid in Hc. rewrite Forall_forall in Hc.
  pose proof (row_width_nth cols g i Hw Hi) as Hlen.
  specialize (Hc (nth i g []) (nth_In _ _ Hi)). rewrite Forall_forall in Hc.
  apply Hc. unfold grid_nth. apply nth_In. lia.
Qed.

Section NoiseExamples.

#[local] Existing Instance lcg_random.
#[local] Existing Instance block_zoom.

Lemma create_seamless_noise_octave_sum_witness :
  let noise := fst (accumulate_octaves 7 2 3) in
  fst (create_seamless_noise 7 3 2 100) = normalize noise /\
  py_range 6 = [0; 1; 2; 3; 4; 5] /\
  Forall (fun o =>
            fst (octave_grid 2 3 o) = spec_octave_grid 2 3 o /\
            length (spec_octave_grid 2 3 o) = Z.to_nat (2 / 2 ^ o + 2) /\
            row_width (Z.to_nat (3 / 2 ^ o + 2)) (spec_octave_grid 2 3 o))
         (py_range 6) /\
  length noise = Z.to_nat 2 /\
  row_width (Z.to_nat 3) noise /\
  forall i j, (i < Z.to_nat 2)%nat -> (j < Z.to_nat 3)%nat ->
    (grid_nth noise i j == spec_noise_sum 2 3 i j)%Q.
Proof.
  apply (@create_seamless_noise_octave_sum lcg_random block_zoom 7 3 2 100); lia.
Defined.

(** A field of one pixel from the congruential generator: the sum of the
    octaves has one entry. *)
Lemma create_seamless_noise_flat_sum_witness :
  exists f, fst (create_seamless_noise 7 1 1 100) = Return f /\
    rect (Z.to_nat 1) (Z.to_nat 1) f /\
    (forall v, In v (concat f) -> v = NaN) /\
    ~ uniform_half f.
Proof.
  apply (@create_seamless_noise_flat_sum lcg_random block_zoom 7 1 1 100
           (grid_nth (fst (accumulate_octaves (RNG := lcg_random) 7 1 1)) 0 0)).
  - apply nth_in_flat; vm_compute; lia.
  - intros v Hv. vm_compute in Hv. destruct Hv as [<-|[]]. vm_compute. reflexivity.
Defined.

(** A 2 x 2 field from the congruential generator: the sum of the octaves is
    least at [(1, 1)] and greatest at [(0, 0)]. *)
Lemma create_seamless_noise_unit_range_witness :
  exists f, fst (create_seamless_noise 7 2 2 100) = Return f /\
    (forall v, In v (concat f) -> exists q, v = Finite q /\ (0 <= q <= 1)%Q) /\
    (exists q, In (Finite q) (concat f) /\ (q == 0)%Q) /\
    (exists q, In (Finite q) (concat f) /\ (q == 1)%Q).
Proof.
  apply (@create_seamless_noise_unit_range lcg_random block_zoom 7 2 2 100
           (grid_nth (fst (accumulate_octaves (RNG := lcg_random) 7 2 2)) 1 1)
           (grid_nth (fst (accumulate_octaves (RNG := lcg_random) 7 2 2)) 0 0)).
  - apply nth_in_flat; vm_compute; lia.
  - apply nth_in_flat; vm_compute; lia.
  - vm_compute. reflexivity.
Defined.

(** C5 as stated fails: for a field of one pixel the octave grids drawn from
    the congruential generator are not flat (the first two samples of octave
    0 differ), and yet the field returned is [[nan]]: its only value is not
    a number of [[0, 1]]. *)
Lemma one_pixel_field_not_in_unit_range :
  ~ Forall (fun o => exists c, constant_grid c (fst (octave_grid 1 1 o))) (py_range 6) /\
  fst (create_seamless_noise 7 1 1 100) = Return [[NaN]] /\
  ~ (exists q, NaN = Finite q /\ (0 <= q <= 1)%Q).
Proof.
  split; [|split].
  - intros H. inversion H as [|o os (c & Hc) _]; subst.
    assert (Hw : row_width 3 (fst (octave_grid 1 1 0)))
      by exact (proj2 (np_random_rand_shape 3 3 _)).
    assert (Hl : length (fst (octave_grid 1 1 0)) = 3%nat)
      by exact (proj1 (np_random_rand_shape 3 3 _)).
    assert (E : (grid_nth (fst (octave_grid 1 1 0)) 0 0 ==
                 grid_nth (fst (octave_grid 1 1 0)) 0 1)%Q).
    { rewrite (constant_grid_nth c _ 3 0 0 Hw Hc), (constant_grid_nth c _ 3 0 1 Hw Hc);
        [reflexivity | | | |]; lia. }
    vm_compute in E. discriminate.
  - apply one_pixel_noise_nan.
  - intros (q & Hq & _). discriminate.
Qed.

End NoiseExamples.

Section FlatExamples.

#[local] Existing Instance flat_random.
#[local] Existing Instance block_zoom.

Lemma flat_random_row n st : fst (rand_row n st) = repeat (1 # 2)%Q n.
Proof.
  induction n as [|n IH]; simpl; [reflexivity|].
  destruct (rand_row n st) as [vs st2]. simpl in *. now rewrite IH.
Qed.

Lemma flat_random_rand rows cols st :
  constant_grid (1 # 2) (fst (np_random_rand rows cols st)).
Proof.
  revert st; induction rows as [|n IH]; intros st; simpl; [constructor|].
  pose proof (flat_random_row cols st) as Hr.
  destruct (rand_row cols st) as [r st1]. specialize (IH st1).
  destruct (np_random_rand n cols st1) as [rs st2].
  simpl in *. constructor; [|assumption].
  subst r. apply Forall_forall. intros v Hv. apply repeat_spec in Hv. now subst.
Qed.

(** C1 as stated fails: with a generator whose samples are all one half,
    every octave grid of a one-pixel field is flat, and the field returned,
    whatever the upsampling and the scale, is [[nan]], not [[0.5]]. *)
Lemma flat_octaves_one_pixel_nan :
  Forall (fun o => constant_grid (1 # 2) (fst (octave_grid 1 1 o))) (py_range 6) /\
  (forall (ND : NdImage) scale,
      fst (create_seamless_noise (ND := ND) tt 1 1 scale) = Return [[NaN]]) /\
  ~ uniform_half [[NaN]].
Proof.
  split; [|split].
  - apply Forall_forall. intros o _. apply flat_random_rand.
  - intros ND scale. apply one_pixel_noise_nan.
  - intros H. destruct (H NaN) as (q & Hq & _); [simpl; tauto | discriminate].
Qed.

End FlatExamples.

(** * Properties of the vein painter *)

Section VeinFacts.

Context {R : PyRandom} {T : Trig} {PIL : Pillow}.

(** ** The generator *)

Lemma bind_return {A B : Type} (m : M A) (k : A -> M B) st a st1 :
  m st = Some (Return a, st1) -> bind m k st = k a st1.
Proof. intros H. unfold bind. now rewrite H. Qed.

Lemma bind_raise {A B : Type} (m : M A) (k : A -> M B) st e st1 :
  m st = Some (Raise e, st1) -> bind m k st = Some (Raise e, st1).
Proof. intros H. unfold bind. now rewrite H. Qed.

Lemma bind_inv {A B : Type} (m : M A) (k : A -> M B) st r st' :
  bind m k st = Some (r, st') ->
  (exists e, m st = Some (Raise e, st') /\ r = Raise e) \/
  (exists a st1, m st = Some (Return a, st1) /\ k a st1 = Some (r, st')).
Proof.
  unfold bind. destruct (m st) as [[[e|a] st1]|]; intros H; try discriminate.
  - inversion H; subst. left. eauto.
  - right. eauto.
Qed.

Lemma random_uniform_run a b st :
  random_uniform a b st =
  Some (Return (a + (b - a) * fst (random_random st))%Q, snd (random_random st)).
Proof. unfold random_uniform. now destruct (random_random st). Qed.

Lemma random_uniform_range a b st :
  (a <= b)%Q ->
  exists v st', random_uniform a b st = Some (Return v, st') /\ (a <= v)%Q /\ (v <= b)%Q.
Proof.
  intros Hab. rewrite random_uniform_run. do 2 eexists. split; [reflexivity|].
  destruct (random_random_unit st) as [H0 H1].
  set (u := fst (random_random st)) in *. split; nra.
Qed.

Lemma random_randint_range a b st :
  a <= b ->
  exists k st', random_randint a b st = Some (Return k, st') /\ a <= k <= b.
Proof.
  intros Hab. unfold random_randint. destruct (Z.ltb_spec b a); [lia|].
  pose proof (random_randbelow_below (b - a + 1) st ltac:(lia)) as Hk.
  destruct (random_randbelow (b - a + 1) st) as [k st']. simpl in Hk.
  do 2 eexists. split; [reflexivity | lia].
Qed.

Lemma random_randint_inv a b st r st' :
  random_randint a b st = Some (r, st') ->
  (b < a /\ r = Raise ValueError /\ st' = st) \/ (exists k, r = Return k /\ a <= k <= b).
Proof.
  unfold random_randint. destruct (Z.ltb_spec b a) as [Hlt|Hle].
  - intros H. inversion H; subst. left. auto.
  - pose proof (random_randbelow_below (b - a + 1) st ltac:(lia)) as Hk.
    destruct (random_randbelow (b - a + 1) st) as [k st1]. simpl in Hk.
    intros H. inversion H; subst. right. eexists. split; [reflexivity | lia].
Qed.

(** ** The walk *)

(** One iteration moves [x] to the right by at least 15 and at most 35. *)
Lemma walk_step_advance x y angle st :
  exists x' y' angle' st',
    walk_step x y angle st = Some (Return (x', y', angle'), st') /\
    (x + 15 <= x')%Q /\ (x' <= x + 35)%Q.
Proof.
  unfold walk_step.
  destruct (random_uniform_range (- (15 # 100)) (15 # 100) st ltac:(lra)) as (d & st1 & Hd & _).
  rewrite (bind_return _ _ _ _ _ Hd).
  destruct (random_uniform_range 15 35 st1 ltac:(lra)) as (dx & st2 & Hdx & Hlo & Hhi).
  rewrite (bind_return _ _ _ _ _ Hdx).
  destruct (random_uniform_range 10 30 st2 ltac:(lra)) as (k & st3 & Hk & _).
  rewrite (bind_return _ _ _ _ _ Hk).
  do 4 eexists. split; [reflexivity|]. split; lra.
Qed.

Lemma Qlt_bool_iff a b : Qlt_bool a b = true <-> (a < b)%Q.
Proof.
  unfold Qlt_bool. rewrite negb_true_iff. split.
  - intros H. apply Qnot_le_lt. rewrite <- Qle_bool_iff. congruence.
  - intros H. destruct (Qle_bool b a) eqn:E; [|reflexivity].
    apply Qle_bool_iff in E. lra.
Qed.

Lemma walk_cond_true width height x y :
  walk_cond width height x y = true <->
  (x < inject_Z (width + width / 4))%Q /\ (0 <= y)%Q /\ (y < inject_Z height)%Q.
Proof.
  unfold walk_cond. rewrite !andb_true_iff, !Qlt_bool_iff, Qle_bool_iff. tauto.
Qed.

(** The loop stops within [fuel] iterations when [15 * fuel] covers the
    distance of [x] to the right bound; it only appends to the points, and
    the number of points it appends is bounded by that distance. *)
Lemma vein_walk_total fuel width height :
  forall x y angle points st,
    (inject_Z (width + width / 4) - x <= 15 * inject_Z (Z.of_nat fuel))%Q ->
    exists new st',
      vein_walk fuel width height x y angle points st = Some (Return (points ++ new), st') /\
      (new = [] \/
       (15 * (inject_Z (Z.of_nat (length new)) - 1) < inject_Z (width + width / 4) - x)%Q).
Proof.
  pose proof (walk_cond_true width height) as Hcond.
  set (B := inject_Z (width + width / 4)) in *.
  induction fuel as [|fuel IH]; intros x y angle points st Hfuel.
  - simpl. destruct (walk_cond width height x y) eqn:C.
    + apply Hcond in C. change (inject_Z (Z.of_nat 0)) with 0%Q in Hfuel. lra.
    + exists [], st. rewrite app_nil_r. split; [reflexivity | now left].
  - simpl. destruct (walk_cond width height x y) eqn:C.
    + apply Hcond in C. destruct C as (Cx & _).
      destruct (walk_step_advance x y angle st) as (x' & y' & angle' & st1 & Hs & Hlo & _).
      rewrite (bind_return _ _ _ _ _ Hs).
      rewrite Nat2Z.inj_succ, <- Z.add_1_r, inject_Z_plus in Hfuel.
      destruct (IH x' y' angle' (points ++ [(py_int x, py_int y)]) st1) as (new & st' & Hw & Hn).
      { change (inject_Z 1) with 1%Q in Hfuel. lra. }
      exists ((py_int x, py_int y) :: new), st'. split.
      * rewrite Hw. now rewrite <- app_assoc.
      * right. destruct Hn as [->|Hn]; simpl length.
        -- change (inject_Z (Z.of_nat 1)) with 1%Q. lra.
        -- rewrite Nat2Z.inj_succ, <- Z.add_1_r, inject_Z_plus.
           change (inject_Z 1) with 1%Q. lra.
    + exists [], st. rewrite app_nil_r. split; [reflexivity | now left].
Qed.

(** Fuel beyond what the loop needs changes nothing. *)
Lemma vein_walk_fuel_mono fuel width height :
  forall x y angle points st r,
    vein_walk fuel width height x y angle points st = Some r ->
    forall fuel', (fuel <= fuel')%nat ->
      vein_walk fuel' width height x y angle points st = Some r.
Proof.
  induction fuel as [|fuel IH]; intros x y angle points st r Hrun fuel' Hle.
  - simpl in Hrun. destruct (walk_cond width height x y) eqn:C; [discriminate|].
    destruct fuel'; simpl; now rewrite C.
  - destruct fuel' as [|fuel']; [lia|]. simpl in *.
    destruct (walk_cond width height x y) eqn:C; [|exact Hrun].
    destruct (walk_step_advance x y angle st) as (x' & y' & angle' & st1 & Hs & _).
    rewrite (bind_return _ _ _ _ _ Hs) in Hrun. rewrite (bind_return _ _ _ _ _ Hs).
    apply (IH _ _ _ _ _ _ Hrun). lia.
Qed.

Lemma walk_fuel_enough width start_x fuel :
  (- width) / 4 <= start_x -> (walk_fuel width <= fuel)%nat ->
  (inject_Z (width + width / 4) - inject_Z start_x <= 15 * inject_Z (Z.of_nat fuel))%Q.
Proof.
  intros Hx Hf. unfold walk_fuel in Hf.
  change 15%Q with (inject_Z 15). unfold Qminus.
  rewrite <- inject_Z_opp, <- inject_Z_plus, <- inject_Z_mult, <- Zle_Qle.
  Z.to_euclidean_division_equations. lia.
Qed.

Lemma walk_points_bound width start_x n :
  0 <= width -> (- width) / 4 <= start_x ->
  (15 * (inject_Z (Z.of_nat n) - 1) < inject_Z (width + width / 4) - inject_Z start_x)%Q ->
  Z.of_nat n <= (width + width / 2) / 15 + 1.
Proof.
  intros Hw Hx Hn.
  change 15%Q with (inject_Z 15) in Hn. change 1%Q with (inject_Z 1) in Hn.
  unfold Qminus in Hn.
  rewrite <- !inject_Z_opp, <- !inject_Z_plus, <- inject_Z_mult, <- Zlt_Qlt in Hn.
  Z.to_euclidean_division_equations. lia.
Qed.

(** C10: the random-walk loop of a vein terminates.  Every iteration moves
    [x] to the right by at least 15; the loop is left as soon as [x] reaches
    [width + width//4], or [y] leaves [[0, height)]; from a start the script
    can draw ([-width//4 <= start_x]) it ends within [walk_fuel width]
    iterations, and the path it returns has at most
    [(width + width//2)//15 + 1] points. *)
Theorem vein_walk_terminates fuel width height start_x start_y angle st :
  0 <= width -> (- width) / 4 <= start_x -> (walk_fuel width <= fuel)%nat ->
  (exists points st',
     vein_walk fuel width height (inject_Z start_x) (inject_Z start_y) angle [] st =
       Some (Return points, st') /\
     Z.of_nat (length points) <= (width + width / 2) / 15 + 1) /\
  (forall x y a s, exists x' y' a' s',
     walk_step x y a s = Some (Return (x', y', a'), s') /\ (x + 15 <= x')%Q) /\
  (forall n x y a points s,
     (inject_Z (width + width / 4) <= x)%Q \/ (y < 0)%Q \/ (inject_Z height <= y)%Q ->
     vein_walk n width height x y a points s = Some (Return points, s)).
Proof.
  intros Hw Hx Hf. split; [|split].
  - destruct (vein_walk_total fuel width height (inject_Z start_x) (inject_Z start_y)
                angle [] st (walk_fuel_enough width start_x fuel Hx Hf))
      as (new & st' & Hrun & Hlen).
    exists new, st'. split; [exact Hrun|].
    destruct Hlen as [->|Hlen].
    + simpl. Z.to_euclidean_division_equations. lia.
    + now apply (walk_points_bound width start_x).
  - intros x y a s.
    destruct (walk_step_advance x y a s) as (x' & y' & a' & s' & H1 & H2 & _).
    exists x', y', a', s'. auto.
  - intros n x y a points s Hout.
    assert (C : walk_cond width height x y = false).
    { destruct (walk_cond width height x y) eqn:C; [|reflexivity].
      apply walk_cond_true in C. lra. }
    destruct n; simpl; now rewrite C.
Qed.

(** ** One vein *)

Lemma bind_inv_return {A B : Type} (m : M A) (k : A -> M B) st b st' :
  bind m k st = Some (Return b, st') ->
  exists a st1, m st = Some (Return a, st1) /\ k a st1 = Some (Return b, st').
Proof.
  intros H. apply bind_inv in H as [(e & _ & He)|H]; [discriminate | exact H].
Qed.

Lemma ret_inv {A : Type} (a b : A) st st' :
  ret a st = Some (Return b, st') -> a = b /\ st = st'.
Proof. unfold ret. intros H. now inversion H. Qed.

(** What one iteration of the [for] loop returns: a path with its stroke
    when it has two points or more, a path without stroke otherwise. *)
Lemma vein_inv fuel width height color thickness_range st points os st' :
  vein fuel width height color thickness_range st = Some (Return (points, os), st') ->
  match os with
  | Some s => s_points s = points /\ stroke_ok color thickness_range s
  | None => (length points <= 1)%nat
  end.
Proof.
  unfold vein. intros H.
  apply bind_inv_return in H as (start_x & st1 & _ & H).
  apply bind_inv_return in H as (start_y & st2 & _ & H).
  apply bind_inv_return in H as (angle & st3 & _ & H).
  apply bind_inv_return in H as (pts & st4 & _ & H).
  destruct (Nat.ltb_spec 1 (length pts)) as [Hlen|Hlen].
  - apply bind_inv_return in H as (thickness & st5 & Ht & H).
    apply bind_inv_return in H as (opacity & st6 & Ho & H).
    destruct color as [[r g] b].
    apply ret_inv in H as [H _]. inversion H; subst. clear H.
    apply random_randint_inv in Ht as [(_ & Ht & _)|(k & Hk & Hrange)]; [discriminate|].
    apply random_randint_inv in Ho as [(_ & Ho & _)|(o & Ho & Horange)]; [discriminate|].
    inversion Hk; inversion Ho; subst.
    split; [reflexivity|]. unfold stroke_ok. simpl. repeat split; try lia.
    exists o. split; [reflexivity | lia].
  - apply ret_inv in H as [H _]. inversion H; subst. exact Hlen.
Qed.

(** An iteration ends, and it raises only when a stroke is due and the
    thickness range is empty. *)
Lemma vein_total fuel width height color thickness_range st :
  0 <= width -> 0 <= height -> (walk_fuel width <= fuel)%nat ->
  exists r st', vein fuel width height color thickness_range st = Some (r, st') /\
    (forall e, r = Raise e -> snd thickness_range < fst thickness_range).
Proof.
  intros Hw Hh Hf. unfold vein.
  destruct (random_randint_range ((- width) / 4) (width + width / 4) st) as (sx & st1 & Hsx & Hx).
  { Z.to_euclidean_division_equations. lia. }
  rewrite (bind_return _ _ _ _ _ Hsx).
  destruct (random_randint_range 0 height st1 Hh) as (sy & st2 & Hsy & _).
  rewrite (bind_return _ _ _ _ _ Hsy).
  destruct (random_uniform_range (- (1 # 2)) (1 # 2) st2 ltac:(lra)) as (a & st3 & Ha & _).
  rewrite (bind_return _ _ _ _ _ Ha).
  destruct (vein_walk_total fuel width height (inject_Z sx) (inject_Z sy) a [] st3
              (walk_fuel_enough width sx fuel (proj1 Hx) Hf)) as (pts & st4 & Hrun & _).
  simpl app in Hrun. rewrite (bind_return _ _ _ _ _ Hrun).
  destruct (1 <? length pts)%nat.
  - destruct (Z.lt_ge_cases (snd thickness_range) (fst thickness_range)) as [Hbad|Hgood].
    + unfold bind at 1, random_randint at 1.
      destruct (Z.ltb_spec (snd thickness_range) (fst thickness_range)); [|lia].
      do 2 eexists. split; [reflexivity | auto].
    + destruct (random_randint_range _ _ st4 Hgood) as (t & st5 & Ht & _).
      rewrite (bind_return _ _ _ _ _ Ht).
      destruct (random_randint_range 30 120 st5 ltac:(lia)) as (o & st6 & Ho & _).
      rewrite (bind_return _ _ _ _ _ Ho).
      destruct color as [[r g] b]. do 2 eexists. split; [reflexivity | discriminate].
  - do 2 eexists. split; [reflexivity | discriminate].
Qed.

(** ** The loop over the veins *)

Lemma veins_loop_inv fuel width height color thickness_range n :
  forall img calls st img' calls' st',
    veins_loop n fuel width height color thickness_range img calls st =
      Some (Return (img', calls'), st') ->
    exists new,
      calls' = calls ++ new /\
      Forall (stroke_ok color thickness_range) new /\
      img' = fold_left draw_line new img /\
      (length new <= n)%nat.
Proof.
  induction n as [|n IH]; intros img calls st img' calls' st' H; simpl in H.
  - apply ret_inv in H as [H _]. inversion H; subst.
    exists []. rewrite app_nil_r. repeat split; auto.
  - apply bind_inv_return in H as ([pts os] & st1 & Hv & H).
    apply vein_inv in Hv. simpl in H. destruct os as [s|].
    + apply IH in H as (new & -> & Hok & -> & Hlen).
      exists (s :: new). rewrite <- app_assoc. destruct Hv as [_ Hs].
      repeat split; auto. simpl. lia.
    + apply IH in H as (new & -> & Hok & -> & Hlen).
      exists new. repeat split; auto.
Qed.

Lemma veins_loop_total fuel width height color thickness_range n :
  0 <= width -> 0 <= height -> (walk_fuel width <= fuel)%nat ->
  forall img calls st,
    exists r st',
      veins_loop n fuel width height color thickness_range img calls st = Some (r, st') /\
      (forall e, r = Raise e -> snd thickness_range < fst thickness_range).
Proof.
  intros Hw Hh Hf. induction n as [|n IH]; intros img calls st; simpl.
  - do 2 eexists. split; [reflexivity | discriminate].
  - destruct (vein_total fuel width height color thickness_range st Hw Hh Hf)
      as ([e|[pts os]] & st1 & Hv & Hr).
    + rewrite (bind_raise _ _ _ _ _ Hv). do 2 eexists. split; [reflexivity|].
      intros e' _. now apply (Hr e).
    + rewrite (bind_return _ _ _ _ _ Hv). simpl. destruct os; apply IH.
Qed.

Lemma nd_shape_nonneg a : 0 <= fst (nd_shape a) /\ 0 <= snd (nd_shape a).
Proof. destruct a; simpl; lia. Qed.

(** C2 on the code: with a vein count of 0 the painter draws nothing and
    reads no random number, and yet it does not hand the buffer back.  The
    8-bit buffer of one pixel [(10, 200, 0)] comes back as [(246, 56, 0)]:
    [img_array * 255] has wrapped around modulo 256 when the canvas is
    built.  The float buffer of one pixel 0.5 comes back as the byte 127:
    the canvas is returned on the scale of 0 to 255, where the callers go on
    with a buffer of [[0, 1]]. *)
Theorem add_veins_zero_changes_buffer fuel color thickness_range st :
  add_veins fuel (UInt8 [[(10, 200, 0)]]) color 0 thickness_range st =
    Some (Return (UInt8 [[(246, 56, 0)]]), st) /\
  add_veins fuel (Float64 [[(Finite (1 # 2), Finite (1 # 2), Finite (1 # 2))]])
    color 0 thickness_range st =
    Some (Return (UInt8 [[(127, 127, 127)]]), st) /\
  nd_values (UInt8 [[(246, 56, 0)]]) <> nd_values (UInt8 [[(10, 200, 0)]]) /\
  ~ (inject_Z 127 == 1 # 2)%Q.
Proof.
  split; [reflexivity|]. split; [reflexivity|]. split.
  - simpl. intros H. inversion H.
  - intros H. vm_compute in H. discriminate.
Qed.

(** C7, as the code has it: every call of the painter ends; it raises only
    on an empty thickness range, and otherwise every vein it draws is one
    call of [draw.line] on the canvas, in order: a path of at least two
    points, in the given colour, blended with one opacity, which is drawn
    from the fixed range [[30, 120]] (the painter takes no opacity range),
    and one width drawn from the caller's thickness range. *)
Theorem add_veins_strokes fuel img_array color num_veins thickness_range st :
  (walk_fuel (snd (nd_shape img_array)) <= fuel)%nat ->
  exists r st',
    add_veins_calls fuel img_array color num_veins thickness_range st = Some (r, st') /\
    match r with
    | Raise e =>
        snd thickness_range < fst thickness_range /\
        add_veins fuel img_array color num_veins thickness_range st = Some (Raise e, st')
    | Return (img, calls) =>
        Forall (stroke_ok color thickness_range) calls /\
        (length calls <= Z.to_nat num_veins)%nat /\
        img = fold_left draw_line calls (canvas_of img_array) /\
        add_veins fuel img_array color num_veins thickness_range st =
          Some (Return (UInt8 img), st')
    end.
Proof.
  intros Hf. destruct (nd_shape_nonneg img_array) as [Hh Hw].
  unfold add_veins, add_veins_calls in *. destruct (nd_shape img_array) as [height width].
  simpl in Hh, Hw, Hf.
  destruct (veins_loop_total fuel width height color thickness_range (Z.to_nat num_veins)
              Hw Hh Hf (canvas_of img_array) [] st) as (r & st' & Hrun & Hr).
  exists r, st'. split; [exact Hrun|]. destruct r as [e|[img calls]].
  - split; [now apply (Hr e) | now rewrite (bind_raise _ _ _ _ _ Hrun)].
  - destruct (veins_loop_inv _ _ _ _ _ _ _ _ _ _ _ _ Hrun) as (new & Hc & Hok & Hi & Hl).
    simpl in Hc. subst new. repeat split; auto.
    now rewrite (bind_return _ _ _ _ _ Hrun).
Qed.

(** C8, as the code has it: every iteration of the painter ends; a path of
    two points or more is handed to [draw.line] as it is, a path of fewer
    points (none, or a single one) is not drawn. *)
Theorem vein_drawn_iff_two_points fuel width height color thickness_range st :
  0 <= width -> 0 <= height -> (walk_fuel width <= fuel)%nat ->
  exists r st',
    vein fuel width height color thickness_range st = Some (r, st') /\
    match r with
    | Raise _ => snd thickness_range < fst thickness_range
    | Return (points, Some s) => s_points s = points /\ (2 <= length points)%nat
    | Return (points, None) => (length points <= 1)%nat
    end.
Proof.
  intros Hw Hh Hf.
  destruct (vein_total fuel width height color thickness_range st Hw Hh Hf)
    as (r & st' & Hrun & Hr).
  exists r, st'. split; [exact Hrun|]. destruct r as [e|[points os]].
  - now apply (Hr e).
  - apply vein_inv in Hrun. destruct os as [s|]; [|exact Hrun].
    destruct Hrun as [<- (Hlen & _)]. split; [reflexivity | exact Hlen].
Qed.

End VeinFacts.

(** ** The painter on concrete inputs *)

Section VeinExamples.

#[local] Existing Instance scripted_random.
#[local] Existing Instance small_angle.
#[local] Existing Instance dots.

Lemma add_veins_strokes_witness :
  exists r st',
    add_veins_calls 2 grey_row (1, 2, 3) 1 (2, 8) one_vein_script = Some (r, st') /\
    match r with
    | Raise e =>
        snd (2, 8) < fst (2, 8) /\
        add_veins 2 grey_row (1, 2, 3) 1 (2, 8) one_vein_script = Some (Raise e, st')
    | Return (img, calls) =>
        Forall (stroke_ok (1, 2, 3) (2, 8)) calls /\
        (length calls <= Z.to_nat 1)%nat /\
        img = fold_left draw_line calls (canvas_of grey_row) /\
        add_veins 2 grey_row (1, 2, 3) 1 (2, 8) one_vein_script = Some (Return (UInt8 img), st')
    end.
Proof.
  apply (@add_veins_strokes scripted_random small_angle dots 2 grey_row (1, 2, 3) 1 (2, 8)
           one_vein_script).
  vm_compute. lia.
Defined.

(** C7 as stated fails: a caller who asks for opacities of [[200, 255]] gets
    a vein of opacity 30. *)
Lemma opacity_range_not_honoured :
  exists img st',
    paint_veins 2 grey_row (1, 2, 3) 1 (2, 8) (200, 255) one_vein_script =
      Some (Return (img, [{| s_points := [(-3, 0); (12, 0)];
                             s_fill := (1, 2, 3, 30);
                             s_width := 2 |}]), st') /\
    ~ spec_stroke_ok (1, 2, 3) (2, 8) (200, 255)
        {| s_points := [(-3, 0); (12, 0)]; s_fill := (1, 2, 3, 30); s_width := 2 |}.
Proof.
  do 2 eexists. split; [vm_compute; reflexivity|].
  intros (_ & (o & Hfill & Ho) & _). simpl in *. inversion Hfill; subst. lia.
Qed.

Lemma vein_drawn_iff_two_points_witness :
  exists r st',
    vein 2 11 1 (1, 2, 3) (2, 8) one_vein_script = Some (r, st') /\
    match r with
    | Raise _ => snd (2, 8) < fst (2, 8)
    | Return (points, Some s) => s_points s = points /\ (2 <= length points)%nat
    | Return (points, None) => (length points <= 1)%nat
    end.
Proof.
  apply (@vein_drawn_iff_two_points scripted_random small_angle 2 11 1 (1, 2, 3) (2, 8)
           one_vein_script); [lia | lia | vm_compute; lia].
Defined.

(** C8 as stated fails: on a 2048 x 2048 image (the size the script
    renders) the vein that starts at [(2559, 100)] has that single point,
    since the first step takes [x] past the right bound 2560; it is not
    drawn. *)
Lemma single_point_path :
  vein (walk_fuel 2048) 2048 2048 (140, 140, 145) (3, 9) [3071; 100; 500; 500; 0; 0] =
    Some (Return ([(2559, 100)], None), []) /\
  length [(2559, 100)] = 1%nat.
Proof. split; [vm_compute|]; reflexivity. Qed.

Lemma vein_walk_terminates_witness :
  (exists points st',
     vein_walk (walk_fuel 40) 40 40 (inject_Z (-10)) (inject_Z 20) 0 []
       [500; 0; 0; 500; 0; 0; 500; 0; 0; 500; 0; 0] =
       Some (Return points, st') /\
     Z.of_nat (length points) <= (40 + 40 / 2) / 15 + 1) /\
  (forall x y a s, exists x' y' a' s',
     walk_step x y a s = Some (Return (x', y', a'), s') /\ (x + 15 <= x')%Q) /\
  (forall n x y a points s,
     (inject_Z (40 + 40 / 4) <= x)%Q \/ (y < 0)%Q \/ (inject_Z 40 <= y)%Q ->
     vein_walk n 40 40 x y a points s = Some (Return points, s)).
Proof.
  apply (@vein_walk_terminates scripted_random small_angle (walk_fuel 40) 40 40 (-10) 20 0
           [500; 0; 0; 500; 0; 0; 500; 0; 0; 500; 0; 0]); [lia | vm_compute; discriminate | lia].
Defined.

End VeinExamples.

(** * Properties of the presets *)

Section DrawingFacts.

Context {PIL : Pillow}.

(** ** Blending keeps a channel in [[1, 255]] *)

Lemma div255_range t : 255 <= t <= 65025 -> 1 <= div255 t <= 255.
Proof.
  intros Ht. unfold div255. cbv zeta. rewrite !Z.shiftr_div_pow2 by lia.
  change (2 ^ 8) with 256.
  Z.to_euclidean_division_equations. lia.
Qed.

Lemma blend_range mask in1 in2 :
  0 <= mask <= 255 -> 1 <= in1 <= 255 -> 1 <= in2 <= 255 ->
  1 <= blend mask in1 in2 <= 255.
Proof.
  intros Hm H1 H2. unfold blend.
  assert (Ht : 255 <= in1 * (255 - mask) + in2 * mask <= 65025) by nia.
  pose proof (div255_range _ Ht). rewrite Z.mod_small; lia.
Qed.

Lemma clip8_range v : 0 <= clip8 v <= 255.
Proof. unfold clip8. lia. Qed.

Lemma clip8_id v : 0 <= v <= 255 -> clip8 v = v.
Proof. unfold clip8. lia. Qed.

Lemma blend_pixel_pos r g b a p :
  byte_pos r -> byte_pos g -> byte_pos b ->
  rgb_all byte_pos p -> rgb_all byte_pos (blend_pixel (r, g, b, a) p).
Proof.
  unfold byte_pos. intros Hr Hg Hb. destruct p as [[pr pg] pb]. intros (H1 & H2 & H3).
  simpl. rewrite !(clip8_id r), !(clip8_id g), !(clip8_id b) by lia.
  pose proof (clip8_range a). repeat split; apply blend_range; lia.
Qed.

(** ** Writing a pixel *)

Lemma update_nth_length {A : Type} n (f : A -> A) l : length (update_nth n f l) = length l.
Proof.
  revert n; induction l as [|a t IH]; intros [|n]; simpl; auto.
Qed.

Lemma update_nth_Forall {A : Type} (P : A -> Prop) n (f : A -> A) l :
  (forall a, P a -> P (f a)) -> Forall P l -> Forall P (update_nth n f l).
Proof.
  intros Hf H. revert n. induction H as [|a t Ha Ht IH]; intros [|n]; simpl; constructor; auto.
Qed.

Lemma update_pixel_rect r c img xy f : rect r c img -> rect r c (update_pixel img xy f).
Proof.
  intros [Hl Hw]. unfold update_pixel. split.
  - now rewrite update_nth_length.
  - apply update_nth_Forall; [|exact Hw]. intros row Hrow. now rewrite update_nth_length.
Qed.

Lemma update_pixel_channels (P : Z -> Prop) img xy f :
  (forall p, rgb_all P p -> rgb_all P (f p)) ->
  channels P img -> channels P (update_pixel img xy f).
Proof.
  intros Hf H. unfold update_pixel, channels.
  apply update_nth_Forall; [|exact H]. intros row Hrow. now apply update_nth_Forall.
Qed.

(** A line in a colour of positive channels keeps the shape of the image
    and the channels positive. *)
Lemma draw_line_pos r c img s red green blue a :
  s_fill s = (red, green, blue, a) ->
  byte_pos red -> byte_pos green -> byte_pos blue ->
  rect r c img -> channels byte_pos img ->
  rect r c (draw_line img s) /\ channels byte_pos (draw_line img s).
Proof.
  intros Hfill Hr Hg Hb. unfold draw_line. rewrite Hfill.
  generalize (line_pixels (length (hd [] img)) (length img) (s_points s) (s_width s)).
  intros pixels. revert img. induction pixels as [|xy pixels IH]; intros img Hrect Hch; simpl.
  - auto.
  - apply IH.
    + now apply update_pixel_rect.
    + apply update_pixel_channels; [|exact Hch]. intros p. now apply blend_pixel_pos.
Qed.

Lemma draw_lines_pos r c color thickness_range calls :
  rgb_all byte_pos color ->
  Forall (stroke_ok color thickness_range) calls ->
  forall img, rect r c img -> channels byte_pos img ->
    rect r c (fold_left draw_line calls img) /\ channels byte_pos (fold_left draw_line calls img).
Proof.
  intros Hcol Hcalls. induction Hcalls as [|s calls Hs _ IH]; intros img Hrect Hch; simpl.
  - auto.
  - destruct color as [[red green] blue]. destruct Hcol as (Hr & Hg & Hb).
    destruct Hs as (_ & (o & Hfill & _) & _).
    destruct (draw_line_pos r c img s red green blue o Hfill Hr Hg Hb Hrect Hch).
    now apply IH.
Qed.

End DrawingFacts.

Section PresetFacts.

Context {RNG : NumPyRandom} {ND : NdImage} {R : PyRandom} {T : Trig} {PIL : Pillow}.

(** ** Arrays under a map *)

Lemma rect_map {A B : Type} (f : A -> B) r c (a : list (list A)) :
  rect r c a -> rect r c (map (map f) a).
Proof.
  intros [Hl Hw]. split; [now rewrite length_map|].
  apply Forall_forall. intros row Hrow. apply in_map_iff in Hrow as (row0 & <- & Hin).
  rewrite Forall_forall in Hw. rewrite length_map. auto.
Qed.

Lemma channels_map {A B : Type} (P : A -> Prop) (Q : B -> Prop) (f : A -> B) a :
  (forall v, P v -> Q (f v)) -> channels P a -> channels Q (map (map (rgb_map f)) a).
Proof.
  intros Hf H. unfold channels in *. apply Forall_forall. intros row Hrow.
  apply in_map_iff in Hrow as (row0 & <- & Hin). rewrite Forall_forall in H.
  specialize (H row0 Hin). apply Forall_forall. intros p Hp.
  apply in_map_iff in Hp as ([[x y] z] & <- & Hp0). rewrite Forall_forall in H.
  destruct (H _ Hp0) as (H1 & H2 & H3). simpl. auto.
Qed.

Lemma rect_hd {A : Type} r c (a : list (list A)) :
  rect r c a -> (0 < r)%nat -> length (hd [] a) = c.
Proof.
  intros [Hl Hw] Hr. destruct a; simpl in *; [lia | now inversion Hw].
Qed.

Lemma all_eq_repeat {A : Type} (x : A) l : Forall (eq x) l -> l = repeat x (length l).
Proof.
  induction 1 as [|y l Hy _ IH]; simpl; [reflexivity|]. subst y. now f_equal.
Qed.

Lemma rect_constant {A : Type} (x : A) r c (a : list (list A)) :
  rect r c a -> Forall (Forall (eq x)) a -> a = repeat (repeat x c) r.
Proof.
  intros [Hl Hw] Hx. subst r. induction Hx as [|row a Hrow _ IH]; simpl; [reflexivity|].
  inversion Hw as [|? ? Hlen Hrest]; subst. f_equal; [|now apply IH].
  now apply all_eq_repeat.
Qed.

(** ** The canvas of a buffer *)

(** A [uint8] buffer of positive channels is turned upside down by the
    product with 255, [v] becoming [256 - v]: the canvas is positive too. *)
Lemma canvas_of_uint8 r c img :
  rect r c img -> channels byte_pos img ->
  rect r c (canvas_of (UInt8 img)) /\ channels byte_pos (canvas_of (UInt8 img)).
Proof.
  intros Hrect Hch. unfold canvas_of, image_fromarray. simpl. split.
  - now apply rect_map.
  - apply (channels_map byte_pos); [|exact Hch].
    unfold byte_pos. intros v Hv. Z.to_euclidean_division_equations. lia.
Qed.

(** ** The cast to [uint8] *)

(** Rounding to an integer does not cross an integer. *)
Lemma round_half_even_between y a b :
  (inject_Z a <= y)%Q -> (y <= inject_Z b)%Q -> a <= round_half_even y <= b.
Proof.
  intros Ha Hb. unfold round_half_even.
  pose proof (Qfloor_le y) as Hf. pose proof (Qlt_floor y) as Hc.
  set (f := Qfloor y) in *.
  assert (Haf : a <= f).
  { assert (H : (inject_Z a < inject_Z (f + 1))%Q) by (eapply Qle_lt_trans; eauto).
    rewrite <- Zlt_Qlt in H. lia. }
  assert (Hfb : f <= b).
  { rewrite Zle_Qle. eapply Qle_trans; eauto. }
  assert (Hup : (1 # 2 <= y - inject_Z f)%Q -> f + 1 <= b).
  { intros H. assert (H' : (inject_Z f < inject_Z b)%Q) by lra.
    rewrite <- Zlt_Qlt in H'. lia. }
  destruct (Qcompare_spec (y - inject_Z f) (1 # 2)) as [E|E|E].
  - destruct (Z.even f); [lia|]. assert (f + 1 <= b) by (apply Hup; lra). lia.
  - lia.
  - assert (f + 1 <= b) by (apply Hup; lra). lia.
Qed.

(** A positive rational at most [2^b] has exponent at most [b]. *)
Lemma binade_le x b :
  (0 < x)%Q -> 0 <= b -> (x <= inject_Z (2 ^ b))%Q -> binade x <= b.
Proof.
  intros Hx Hb Hle. destruct x as [n d]. unfold binade, Qlt, Qle, inject_Z in *.
  cbn [Qnum Qden] in *.
  assert (Hn : 0 < n) by lia.
  assert (H1 : Z.log2 n <= Z.log2 (Z.pos d * 2 ^ b)).
  { apply Z.log2_le_mono. lia. }
  assert (H2 : Z.log2 (Z.pos d * 2 ^ b) = b + Z.log2 (Z.pos d)).
  { apply Z.log2_mul_pow2; lia. }
  destruct (_ <=? _); lia.
Qed.

Lemma Qshift_up x k : 0 <= k -> (Qshift x k == x * inject_Z (2 ^ k))%Q.
Proof.
  intros Hk. unfold Qshift. rewrite Z.max_l, Z.max_r by lia.
  change (inject_Z (2 ^ 0)) with 1%Q. field.
Qed.

Lemma Qshift_down x k : 0 <= k -> (Qshift x (- k) == x / inject_Z (2 ^ k))%Q.
Proof.
  intros Hk. unfold Qshift. rewrite Z.opp_involutive, Z.max_r, Z.max_l by lia.
  change (inject_Z (2 ^ 0)) with 1%Q.
  assert (0 < 2 ^ k) by (apply Z.pow_pos_nonneg; lia).
  assert (H0 : (0 < inject_Z (2 ^ k))%Q) by (change 0%Q with (inject_Z 0); now rewrite <- Zlt_Qlt).
  field. lra.
Qed.

(** Rounding to the nearest double does not cross an integer below [2^52]. *)
Lemma round_double_between x a b :
  0 < a -> b <= 2 ^ 52 -> (inject_Z a <= x)%Q -> (x <= inject_Z b)%Q ->
  (inject_Z a <= round_double x)%Q /\ (round_double x <= inject_Z b)%Q.
Proof.
  intros Ha Hb Hlo Hhi.
  assert (Hx : (0 < x)%Q).
  { eapply Qlt_le_trans; [|exact Hlo]. change 0%Q with (inject_Z 0). now rewrite <- Zlt_Qlt. }
  assert (Habs : Qabs x = x).
  { destruct x as [n d]. unfold Qlt in Hx. simpl in Hx. destruct n; try lia. reflexivity. }
  unfold round_double. rewrite Habs.
  assert (Hpos : Qle_bool 0 x = true) by (apply Qle_bool_iff; lra).
  rewrite Hpos.
  assert (He : binade x <= 52).
  { apply binade_le; [exact Hx | lia |]. eapply Qle_trans; [exact Hhi|]. now rewrite <- Zle_Qle. }
  set (k := 52 - Z.max (binade x) (-1022)).
  assert (Hk : 0 <= k) by (unfold k; lia).
  assert (Hp : 0 < 2 ^ k) by (apply Z.pow_pos_nonneg; lia).
  assert (Hp' : (0 < inject_Z (2 ^ k))%Q) by (change 0%Q with (inject_Z 0); now rewrite <- Zlt_Qlt).
  destruct (round_half_even_between (Qshift x k) (a * 2 ^ k) (b * 2 ^ k)) as [H1 H2].
  { rewrite Qshift_up, inject_Z_mult by exact Hk. apply Qmult_le_compat_r; lra. }
  { rewrite Qshift_up, inject_Z_mult by exact Hk. apply Qmult_le_compat_r; lra. }
  rewrite Qshift_down by exact Hk.
  set (m := round_half_even (Qshift x k)) in *.
  rewrite Zle_Qle, inject_Z_mult in H1. rewrite Zle_Qle, inject_Z_mult in H2.
  split.
  - apply Qle_shift_div_l; [exact Hp'|exact H1].
  - apply Qle_shift_div_r; [exact Hp'|exact H2].
Qed.

Lemma py_int_between q a b :
  0 <= a -> (inject_Z a <= q)%Q -> (q <= inject_Z b)%Q -> a <= py_int q <= b.
Proof.
  intros Ha Hlo Hhi.
  assert (Hq : py_int q = Qfloor q).
  { unfold py_int, Qfloor. destruct q as [n d]. simpl.
    apply Z.quot_div_nonneg; [|lia].
    assert (H0 : (0 <= n # d)%Q).
    { apply Qle_trans with (inject_Z a); [|exact Hlo].
      change (inject_Z 0 <= inject_Z a)%Q. rewrite <- Zle_Qle. exact Ha. }
    unfold Qle in H0. simpl in H0. lia. }
  rewrite Hq. split.
  - rewrite <- (Qfloor_Z a). now apply Qfloor_resp_le.
  - rewrite <- (Qfloor_Z b). now apply Qfloor_resp_le.
Qed.

(** The cast sees the double, not the exact product: the double nearest to
    0.6 is below 0.6, its exact product with 255 is below 153, and the
    double nearest to that product is 153.  In the same way the double
    nearest to 1.2 gives 306, that is 50 modulo 256; and from [2^31] on the
    cast gives 0. *)
Lemma uint8_of_float_rounds_first :
  py_int ((5404319552844595 # 9007199254740992) * inject_Z 255) = 152 /\
  uint8_of_float (Finite ((5404319552844595 # 9007199254740992) * inject_Z 255)) = 153 /\
  uint8_of_float (Finite ((5404319552844595 # 4503599627370496) * inject_Z 255)) = 50 /\
  uint8_of_float (Finite (inject_Z 2147483647)) = 255 /\
  uint8_of_float (Finite (inject_Z 2147483648)) = 0.
Proof. vm_compute. repeat split. Qed.

(** A float between [1/255] and 1, times 255, casts to a byte between 1
    and 255. *)
Lemma uint8_of_float_bright q :
  (1 # 255 <= q)%Q -> (q <= 1)%Q -> byte_pos (uint8_of_float (Finite (q * inject_Z 255))).
Proof.
  intros Hlo Hhi. unfold uint8_of_float, byte_pos.
  destruct (round_double_between (q * inject_Z 255) 1 255) as [H1 H2];
    [lia | lia | | |].
  - change (inject_Z 255) with 255%Q. change (inject_Z 1) with 1%Q. lra.
  - change (inject_Z 255) with 255%Q. lra.
  - pose proof (py_int_between _ 1 255 ltac:(lia) H1 H2) as Hn.
    unfold int32_of_double.
    set (n := py_int (round_double (q * inject_Z 255))) in *.
    replace ((- 2 ^ 31 <=? n) && (n <? 2 ^ 31)) with true
      by (symmetry; apply andb_true_iff; split; [apply Z.leb_le | apply Z.ltb_lt]; lia).
    rewrite Z.mod_small; lia.
Qed.

Lemma canvas_of_float r c a :
  rect r c a -> channels bright a ->
  rect r c (canvas_of (Float64 a)) /\ channels byte_pos (canvas_of (Float64 a)).
Proof.
  intros Hrect Hch. unfold canvas_of, image_fromarray. simpl.
  rewrite map_map. split.
  - rewrite <- (map_map (map (rgb_map (fun v => np_scale v (inject_Z 255))))
                        (map (rgb_map uint8_of_float))).
    now apply rect_map, rect_map.
  - assert (E : forall row : list (rgb npfloat),
               map (rgb_map uint8_of_float) (map (rgb_map (fun v => np_scale v (inject_Z 255))) row) =
               map (rgb_map (fun v => uint8_of_float (np_scale v (inject_Z 255)))) row).
    { intros row. rewrite map_map. apply map_ext. now intros [[x y] z]. }
    rewrite (map_ext _ _ E).
    apply (channels_map bright); [|exact Hch].
    intros v (q & -> & Hlo & Hhi). cbn [np_scale]. now apply uint8_of_float_bright.
Qed.

(** ** One layer of veins *)

Lemma add_veins_pos fuel img_array color count thickness_range st r c :
  (0 < r)%nat ->
  nd_shape img_array = (Z.of_nat r, Z.of_nat c) ->
  rect r c (canvas_of img_array) -> channels byte_pos (canvas_of img_array) ->
  (walk_fuel (Z.of_nat c) <= fuel)%nat ->
  fst thickness_range <= snd thickness_range -> rgb_all byte_pos color ->
  exists img st',
    add_veins fuel img_array color count thickness_range st = Some (Return (UInt8 img), st') /\
    rect r c img /\ channels byte_pos img.
Proof.
  intros Hr Hshape Hrect Hch Hfuel Htr Hcol.
  unfold add_veins, add_veins_calls. rewrite Hshape.
  destruct (veins_loop_total fuel (Z.of_nat c) (Z.of_nat r) color thickness_range
              (Z.to_nat count) ltac:(lia) ltac:(lia) Hfuel (canvas_of img_array) [] st)
    as ([e|[img calls]] & st' & Hrun & Hraise).
  - specialize (Hraise e eq_refl). lia.
  - rewrite (bind_return _ _ _ _ _ Hrun).
    destruct (veins_loop_inv _ _ _ _ _ _ _ _ _ _ _ _ Hrun) as (new & Hc & Hok & Hi & _).
    simpl in Hc. subst new.
    destruct (draw_lines_pos r c color thickness_range calls Hcol Hok _ Hrect Hch) as [H1 H2].
    exists img, st'. subst img. simpl. auto.
Qed.

(** ** Line 159: clip, scale and cast *)

Lemma final_white r c img :
  rect r c img -> channels byte_pos img ->
  astype_uint8 (nd_mul (np_clip (UInt8 img) 0 1) 255) = repeat (repeat (255, 255, 255) c) r.
Proof.
  intros Hrect Hch. simpl. apply rect_constant.
  - now apply rect_map, rect_map.
  - rewrite map_map.
    assert (E : forall row : list (rgb Z),
               map (rgb_map (fun v => (v * 255) mod 256))
                 (map (rgb_map (fun v => Z.min (Z.max v 0) 1)) row) =
               map (rgb_map (fun v => (Z.min (Z.max v 0) 1 * 255) mod 256)) row).
    { intros row. rewrite map_map. apply map_ext. now intros [[x y] z]. }
    rewrite (map_ext _ _ E).
    assert (W : channels (eq 255)
                  (map (map (rgb_map (fun v => (Z.min (Z.max v 0) 1 * 255) mod 256))) img)).
    { apply (channels_map byte_pos); [|exact Hch]. unfold byte_pos. intros v Hv.
      replace (Z.min (Z.max v 0) 1) with 1 by lia. reflexivity. }
    unfold channels in W. eapply Forall_impl; [|exact W]. intros row Hrow.
    eapply Forall_impl; [|exact Hrow]. intros [[x y] z] (<- & <- & <-). reflexivity.
Qed.

(** ** The base colour with the texture *)

(** Outside the flat case the noise field of a square image is a square of
    values of [[0, 1]]. *)
Lemma noise_field_unit nst size scale a b :
  let noise := fst (accumulate_octaves nst size size) in
  In a (flat noise) -> In b (flat noise) -> (a < b)%Q ->
  0 < size /\
  exists f, fst (create_seamless_noise nst size size scale) = Return f /\
    rect (Z.to_nat size) (Z.to_nat size) f /\ Forall (Forall unit_value) f.
Proof.
  intros noise Ha Hb Hab.
  destruct (accumulate_octaves_entry nst size size a Ha) as [Hs _]. split; [exact Hs|].
  rewrite create_seamless_noise_normalize by lia. fold noise.
  destruct (normalize_range noise a b Ha Hb Hab) as (f & Hf & _ & Hunit & _).
  exists f. split; [exact Hf|].
  destruct (accumulate_octaves_spec nst size size ltac:(lia) ltac:(lia)) as (_ & Hl & Hw & _).
  fold noise in Hl, Hw. destruct (normalize_inv noise f Hf) as [g ->]. split.
  - apply rect_map. split; assumption.
  - apply Forall_forall. intros row Hrow. apply Forall_forall. intros v Hv.
    destruct (Hunit v) as (q & -> & H0 & H1).
    + apply in_concat. eauto.
    + exists q. auto.
Qed.

Lemma zip_with_repeat {A B C : Type} (f : A -> B -> C) x l :
  zip_with f (repeat x (length l)) l = map (f x) l.
Proof. induction l as [|b l IH]; simpl; [reflexivity | now rewrite IH]. Qed.

Lemma add_texture_full size color noise amp :
  rect (Z.to_nat size) (Z.to_nat size) noise ->
  add_texture (np_full size color) noise amp =
  map (map (fun n => rgb_map (fun c => np_add c (np_scale n amp)) (rgb_map Finite color))) noise.
Proof.
  intros [Hl Hw]. unfold add_texture, np_full. rewrite <- Hl at 2.
  rewrite zip_with_repeat. apply map_ext_in. intros row Hrow.
  rewrite Forall_forall in Hw. rewrite <- (Hw row Hrow). apply zip_with_repeat.
Qed.

Lemma add_texture_bright size color noise amp :
  (0 <= amp)%Q ->
  rgb_all (fun c => (1 # 255 <= c)%Q /\ (c + amp <= 1)%Q) color ->
  rect (Z.to_nat size) (Z.to_nat size) noise -> Forall (Forall unit_value) noise ->
  rect (Z.to_nat size) (Z.to_nat size) (add_texture (np_full size color) noise amp) /\
  channels bright (add_texture (np_full size color) noise amp).
Proof.
  intros Hamp Hcol Hrect Hunit. rewrite add_texture_full by assumption. split.
  - now apply rect_map.
  - unfold channels. apply Forall_forall. intros row Hrow.
    apply in_map_iff in Hrow as (row0 & <- & Hin). rewrite Forall_forall in Hunit.
    specialize (Hunit row0 Hin). apply Forall_forall. intros p Hp.
    apply in_map_iff in Hp as (v & <- & Hv). rewrite Forall_forall in Hunit.
    destruct (Hunit v Hv) as (q & -> & H0 & H1).
    destruct color as [[c1 c2] c3]. destruct Hcol as ((L1 & U1) & (L2 & U2) & (L3 & U3)).
    simpl. unfold bright. repeat split; eexists; (split; [reflexivity|]); split; nra.
Qed.

(** ** A preset from end to end *)

(** With a base colour of channels in [[1/255, 1 - amp]], veins of positive
    colours and a noise field that is not flat, the array that reaches
    [Image.fromarray] holds 255 in every channel: the second layer of veins
    multiplies the 8-bit result of the first by 255 again, and what
    [np.clip(base, 0, 1) * 255] then receives are bytes of [[1, 255]]. *)
Lemma preset_array_white fuel nst size base_color scale amp
      color1 count1 thickness1 color2 count2 thickness2 st a b :
  let noise := fst (accumulate_octaves nst size size) in
  In a (flat noise) -> In b (flat noise) -> (a < b)%Q ->
  (walk_fuel size <= fuel)%nat ->
  (0 <= amp)%Q ->
  rgb_all (fun c => (1 # 255 <= c)%Q /\ (c + amp <= 1)%Q) base_color ->
  rgb_all byte_pos color1 -> rgb_all byte_pos color2 ->
  fst thickness1 <= snd thickness1 -> fst thickness2 <= snd thickness2 ->
  exists st',
    preset_array fuel nst size base_color scale amp
      color1 count1 thickness1 color2 count2 thickness2 st =
    Some (Return (white_image size), st').
Proof.
  intros noise Ha Hb Hab Hfuel Hamp Hbase Hc1 Hc2 Ht1 Ht2.
  destruct (noise_field_unit nst size scale a b Ha Hb Hab) as (Hs & f & Hf & Hrect & Hunit).
  unfold preset_array. destruct (Z.ltb_spec size 0); [lia|]. rewrite Hf.
  set (n := Z.to_nat size) in *.
  assert (Hn : (0 < n)%nat) by (subst n; lia).
  assert (Hsize : Z.of_nat n = size) by (subst n; lia).
  destruct (add_texture_bright size base_color f amp Hamp Hbase Hrect Hunit) as [Trect Tbright].
  fold n in Trect.
  set (tex := add_texture (np_full size base_color) f amp) in *.
  destruct (canvas_of_float n n tex Trect Tbright) as [C1rect C1pos].
  destruct (add_veins_pos fuel (Float64 tex) color1 count1 thickness1 st n n Hn)
    as (img1 & st1 & Hrun1 & R1 & P1); auto.
  { simpl. rewrite (rect_hd n n tex Trect Hn). destruct Trect as [Hl _]. now rewrite Hl. }
  { now rewrite Hsize. }
  rewrite (bind_return _ _ _ _ _ Hrun1).
  destruct (canvas_of_uint8 n n img1 R1 P1) as [C2rect C2pos].
  destruct (add_veins_pos fuel (UInt8 img1) color2 count2 thickness2 st1 n n Hn)
    as (img2 & st2 & Hrun2 & R2 & P2); auto.
  { simpl. rewrite (rect_hd n n img1 R1 Hn). destruct R1 as [Hl _]. now rewrite Hl. }
  { now rewrite Hsize. }
  rewrite (bind_return _ _ _ _ _ Hrun2).
  exists st2. unfold ret. now rewrite (final_white n n img2 R2 P2).
Qed.

Lemma statuario_array_preset fuel nst size :
  statuario_array fuel nst size =
  preset_array fuel nst size (97 # 100, 97 # 100, 98 # 100)%Q 300 (2 # 100)
    (140, 140, 145) 18 (3, 9) (170, 170, 175) 12 (1, 5).
Proof. reflexivity. Qed.

Lemma grey_emperador_array_preset fuel nst size :
  grey_emperador_array fuel nst size =
  preset_array fuel nst size (75 # 100, 74 # 100, 73 # 100)%Q 180 (8 # 100)
    (100, 100, 105) 20 (2, 7) (200, 198, 195) 15 (1, 4).
Proof. reflexivity. Qed.

Lemma concat_repeat_length {A : Type} (row : list A) n :
  length (concat (repeat row n)) = (n * length row)%nat.
Proof. induction n as [|n IH]; simpl; [reflexivity|]. rewrite length_app, IH. lia. Qed.

Lemma channel_sum_app a b : channel_sum (a ++ b) = channel_sum a + channel_sum b.
Proof.
  unfold channel_sum. rewrite concat_app, map_app.
  induction (map _ (concat a)) as [|x l IH]; simpl; [reflexivity | lia].
Qed.

Lemma channel_sum_white_row m :
  channel_sum [repeat (255, 255, 255) m] = 765 * Z.of_nat m.
Proof.
  unfold channel_sum. cbn [concat]. rewrite app_nil_r.
  induction m as [|m IH]; [reflexivity|].
  rewrite Nat2Z.inj_succ. cbn [repeat map fold_right]. rewrite IH. lia.
Qed.

Lemma channel_sum_white_rows n m :
  channel_sum (repeat (repeat (255, 255, 255) m) n) = 765 * Z.of_nat (n * m).
Proof.
  induction n as [|n IH]; [reflexivity|].
  change (repeat (repeat (255, 255, 255) m) (S n))
    with ([repeat (255, 255, 255) m] ++ repeat (repeat (255, 255, 255) m) n).
  rewrite channel_sum_app, channel_sum_white_row, IH. lia.
Qed.

Lemma mean_brightness_white size : 0 < size -> (mean_brightness (white_image size) == 255)%Q.
Proof.
  intros Hs. unfold mean_brightness, white_image.
  rewrite channel_sum_white_rows, concat_repeat_length, repeat_length.
  set (k := Z.of_nat (Z.to_nat size * Z.to_nat size)).
  assert (Hk : 0 < k) by (subst k; rewrite Nat2Z.inj_mul, Z2Nat.id by lia; nia).
  replace (765 * k) with (255 * (3 * k)) by lia. rewrite inject_Z_mult.
  change (inject_Z 255) with 255%Q. field.
  intros H0. clearbody k. unfold Qeq, inject_Z in H0. cbn [Qnum Qden] in H0. lia.
Qed.

(** C9 on the code: for every size, every state of the two generators (every
    sequence of random draws) and every noise field that is not flat, the
    Statuario preset and the Grey Emperador preset hand the same image to
    the blur, the image whose every channel is 255; its mean brightness is
    255 for both presets. *)
Theorem presets_render_white fuel nst size st_s st_g a b :
  let noise := fst (accumulate_octaves nst size size) in
  In a (flat noise) -> In b (flat noise) -> (a < b)%Q ->
  (walk_fuel size <= fuel)%nat ->
  exists st_s' st_g',
    statuario_array fuel nst size st_s = Some (Return (white_image size), st_s') /\
    grey_emperador_array fuel nst size st_g = Some (Return (white_image size), st_g') /\
    generate_statuario fuel nst size st_s =
      Some (Return (gaussian_blur (5 # 10) (white_image size)), st_s') /\
    generate_grey_emperador fuel nst size st_g =
      Some (Return (gaussian_blur (6 # 10) (white_image size)), st_g') /\
    (mean_brightness (white_image size) == 255)%Q.
Proof.
  intros noise Ha Hb Hab Hfuel.
  destruct (accumulate_octaves_entry nst size size a Ha) as [Hs _].
  assert (Hstat : exists st', statuario_array fuel nst size st_s =
                              Some (Return (white_image size), st')).
  { rewrite statuario_array_preset.
    apply (preset_array_white fuel nst size _ _ _ _ _ _ _ _ _ st_s a b);
      try assumption; unfold byte_pos; simpl; try lia; try lra; repeat split; lra. }
  assert (Hgrey : exists st', grey_emperador_array fuel nst size st_g =
                              Some (Return (white_image size), st')).
  { rewrite grey_emperador_array_preset.
    apply (preset_array_white fuel nst size _ _ _ _ _ _ _ _ _ st_g a b);
      try assumption; unfold byte_pos; simpl; try lia; try lra; repeat split; lra. }
  destruct Hstat as [st_s' Hstat]. destruct Hgrey as [st_g' Hgrey].
  exists st_s', st_g'. repeat split; try assumption.
  - unfold generate_statuario. now rewrite (bind_return _ _ _ _ _ Hstat).
  - unfold generate_grey_emperador. now rewrite (bind_return _ _ _ _ _ Hgrey).
  - now apply mean_brightness_white.
Qed.

End PresetFacts.

(** ** The presets on concrete inputs *)

Section PresetExamples.

#[local] Existing Instance lcg_random.
#[local] Existing Instance block_zoom.
#[local] Existing Instance scripted_random.
#[local] Existing Instance small_angle.
#[local] Existing Instance dots.

Lemma presets_render_white_witness :
  exists st_s' st_g',
    statuario_array (walk_fuel 2) 7 2 [] = Some (Return (white_image 2), st_s') /\
    grey_emperador_array (walk_fuel 2) 7 2 [] = Some (Return (white_image 2), st_g') /\
    generate_statuario (walk_fuel 2) 7 2 [] =
      Some (Return (gaussian_blur (5 # 10) (white_image 2)), st_s') /\
    generate_grey_emperador (walk_fuel 2) 7 2 [] =
      Some (Return (gaussian_blur (6 # 10) (white_image 2)), st_g') /\
    (mean_brightness (white_image 2) == 255)%Q.
Proof.
  apply (@presets_render_white lcg_random block_zoom scripted_random small_angle dots
           (walk_fuel 2) 7 2 [] []
           (grid_nth (fst (accumulate_octaves (RNG := lcg_random) 7 2 2)) 1 1)
           (grid_nth (fst (accumulate_octaves (RNG := lcg_random) 7 2 2)) 0 0)).
  - apply nth_in_flat; vm_compute; lia.
  - apply nth_in_flat; vm_compute; lia.
  - vm_compute. reflexivity.
  - lia.
Defined.

End PresetExamples.

(** * Further properties of the noise synthesizer *)

Section NoiseEdges.

Context {RNG : NumPyRandom} {ND : NdImage}.

Lemma accumulate_octaves_empty st height width :
  height <= 0 \/ width <= 0 -> flat (fst (accumulate_octaves st height width)) = [].
Proof.
  intros Hsize. destruct (flat (fst (accumulate_octaves st height width))) as [|v vs] eqn:E;
    [reflexivity|].
  destruct (accumulate_octaves_entry st height width v); [rewrite E; now left | lia].
Qed.

(** X1: a width or a height that is zero or negative makes the synthesizer raise
    [ValueError]: a negative one in [np.linspace], a zero one in
    [noise.min()], which has no entry to reduce. *)
Theorem create_seamless_noise_raises st width height scale :
  width <= 0 \/ height <= 0 ->
  fst (create_seamless_noise st width height scale) = Raise ValueError.
Proof.
  intros Hsize. unfold create_seamless_noise, np_linspace.
  destruct (Z.ltb_spec width 0) as [Hw|Hw]; [reflexivity|].
  destruct (Z.ltb_spec height 0) as [Hh|Hh]; [reflexivity|].
  pose proof (accumulate_octaves_empty st height width ltac:(lia)) as Hflat.
  destruct (accumulate_octaves st height width) as [noise st']. simpl in *.
  unfold normalize, np_min. now rewrite Hflat.
Qed.

(** X2: for a positive width and height the synthesizer returns a field of
    [height] rows of [width] values, and the values are of one kind: all
    [nan] (the summed octaves are flat) or all finite in [[0, 1]].  No value
    is infinite. *)
Theorem create_seamless_noise_field st width height scale :
  0 < width -> 0 < height ->
  exists f, fst (create_seamless_noise st width height scale) = Return f /\
    rect (Z.to_nat height) (Z.to_nat width) f /\
    (Forall (Forall (eq NaN)) f \/ Forall (Forall unit_value) f).
Proof.
  intros Hw Hh. rewrite create_seamless_noise_normalize by lia.
  destruct (accumulate_octaves_spec st height width ltac:(lia) ltac:(lia)) as (_ & Hl & Hrw & _).
  cbv zeta in Hl, Hrw. set (noise := fst (accumulate_octaves st height width)) in *.
  assert (Hin : In (grid_nth noise 0 0) (flat noise)).
  { apply nth_in_flat; [lia|]. rewrite (row_width_nth (Z.to_nat width)); auto; lia. }
  destruct (np_min_spec noise _ Hin) as (mn & Hmn & Hmn_in & Hmin).
  destruct (np_max_spec noise _ Hin) as (mx & Hmx & Hmx_in & Hmax).
  destruct (Qlt_le_dec mn mx) as [Hlt|Hle].
  - destruct (normalize_range noise mn mx Hmn_in Hmx_in Hlt) as (f & Hf & _ & Hunit & _).
    exists f. split; [exact Hf|]. destruct (normalize_inv noise f Hf) as [g ->]. split.
    + apply rect_map. split; assumption.
    + right. apply Forall_forall. intros row Hrow. apply Forall_forall. intros v Hv.
      destruct (Hunit v) as (q & -> & H0 & H1); [apply in_concat; eauto|].
      exists q. auto.
  - destruct (normalize_flat noise mn _ Hin) as (f & Hf & _ & Hnan).
    { intros v Hv. specialize (Hmin v Hv). specialize (Hmax v Hv). lra. }
    exists f. split; [exact Hf|]. destruct (normalize_inv noise f Hf) as [g ->]. split.
    + apply rect_map. split; assumption.
    + left. apply Forall_forall. intros row Hrow. apply Forall_forall. intros v Hv.
      symmetry. apply Hnan. apply in_concat. eauto.
Qed.

(** X3: a call that gets past the two [np.linspace] leaves numpy's global
    generator where the last octave left it: seeded with 47 and advanced by
    the [(height//32 + 2) * (width//32 + 2)] samples of that octave's grid,
    whatever state the caller had set up. *)
Theorem create_seamless_noise_leaves_state st width height scale :
  0 <= width -> 0 <= height ->
  snd (create_seamless_noise st width height scale) =
  snd (np_random_rand (Z.to_nat (height / 32 + 2)) (Z.to_nat (width / 32 + 2))
         (np_random_seed 47)).
Proof.
  intros Hw Hh. unfold create_seamless_noise, np_linspace.
  destruct (Z.ltb_spec width 0); [lia|]. destruct (Z.ltb_spec height 0); [lia|].
  assert (E : snd (accumulate_octaves st height width) = snd (octave_grid height width 5)).
  { unfold accumulate_octaves. change (py_range 6) with [0; 1; 2; 3; 4; 5].
    cbn [fold_left]. now rewrite (octave_step_layer height width _ 5). }
  destruct (accumulate_octaves st height width) as [noise st']. simpl in *. rewrite E.
  unfold octave_grid. cbv zeta. change (2 ^ 5) with 32. change (5 + 42) with 47.
  now rewrite !py_int_true_divide by lia.
Qed.

End NoiseEdges.

(** * Further properties of the vein painter *)

Section PainterFacts.

Context {R : PyRandom} {T : Trig} {PIL : Pillow}.

(** ** Shape and range of the painted buffer *)

Lemma blend_byte mask in1 in2 : byte (blend mask in1 in2).
Proof.
  unfold byte, blend.
  pose proof (Z.mod_pos_bound (div255 (in1 * (255 - mask) + in2 * mask)) 256 eq_refl). lia.
Qed.

Lemma blend_pixel_byte fill p : rgb_all byte (blend_pixel fill p).
Proof.
  destruct fill as [[[r g] b] a]. destruct p as [[pr pg] pb]. simpl.
  repeat split; apply blend_byte.
Qed.

Lemma draw_line_byte r c img s :
  rect r c img -> channels byte img ->
  rect r c (draw_line img s) /\ channels byte (draw_line img s).
Proof.
  unfold draw_line.
  generalize (line_pixels (length (hd [] img)) (length img) (s_points s) (s_width s)).
  intros pixels. revert img. induction pixels as [|xy pixels IH]; intros img Hrect Hch; simpl.
  - auto.
  - apply IH.
    + now apply update_pixel_rect.
    + apply update_pixel_channels; [|exact Hch]. intros p _. apply blend_pixel_byte.
Qed.

Lemma draw_lines_byte r c calls :
  forall img, rect r c img -> channels byte img ->
    rect r c (fold_left draw_line calls img) /\ channels byte (fold_left draw_line calls img).
Proof.
  induction calls as [|s calls IH]; intros img Hrect Hch; simpl; [auto|].
  destruct (draw_line_byte r c img s Hrect Hch). now apply IH.
Qed.

Lemma uint8_of_float_byte v : byte (uint8_of_float v).
Proof.
  unfold byte, uint8_of_float. destruct v as [q| | |]; try lia.
  pose proof (Z.mod_pos_bound (int32_of_double (round_double q)) 256 eq_refl). lia.
Qed.

(** The canvas has the rows and columns of the buffer, and bytes as
    channels. *)
Lemma canvas_of_byte r c img_array :
  rect r c (nd_values img_array) ->
  rect r c (canvas_of img_array) /\ channels byte (canvas_of img_array).
Proof.
  intros Hrect. unfold canvas_of, image_fromarray.
  destruct img_array as [rows|rows]; simpl in *.
  - split.
    + now apply rect_map, rect_map.
    + unfold channels. apply Forall_forall. intros row Hrow.
      apply in_map_iff in Hrow as (row1 & <- & _). apply Forall_forall. intros p Hp.
      apply in_map_iff in Hp as ([[x y] z] & <- & _). simpl.
      repeat split; apply uint8_of_float_byte.
  - assert (Hrows : rect r c rows).
    { destruct Hrect as [Hl Hw]. rewrite length_map in Hl. split; [exact Hl|].
      apply Forall_forall. intros row Hrow. rewrite Forall_forall in Hw.
      specialize (Hw (map (rgb_map (fun v => Finite (inject_Z v))) row)).
      rewrite length_map in Hw. apply Hw. now apply in_map. }
    split.
    + now apply rect_map.
    + unfold channels. apply Forall_forall. intros row Hrow.
      apply in_map_iff in Hrow as (row0 & <- & _). apply Forall_forall. intros p Hp.
      apply in_map_iff in Hp as ([[x y] z] & <- & _). simpl. unfold byte.
      pose proof (Z.mod_pos_bound (x * 255) 256 eq_refl).
      pose proof (Z.mod_pos_bound (y * 255) 256 eq_refl).
      pose proof (Z.mod_pos_bound (z * 255) 256 eq_refl). lia.
Qed.

Lemma add_veins_returns fuel img_array color num_veins thickness_range st r c :
  rect r c (nd_values img_array) ->
  (walk_fuel (snd (nd_shape img_array)) <= fuel)%nat ->
  fst thickness_range <= snd thickness_range ->
  exists img st',
    add_veins fuel img_array color num_veins thickness_range st =
      Some (Return (UInt8 img), st') /\
    rect r c img /\ channels byte img.
Proof.
  intros Hrect Hfuel Htr.
  destruct (canvas_of_byte r c img_array Hrect) as [Crect Cbyte].
  destruct (nd_shape_nonneg img_array) as [Hh Hw].
  unfold add_veins, add_veins_calls. destruct (nd_shape img_array) as [height width].
  simpl in Hh, Hw, Hfuel.
  destruct (veins_loop_total fuel width height color thickness_range
              (Z.to_nat num_veins) Hw Hh Hfuel (canvas_of img_array) [] st)
    as ([e|[img calls]] & st' & Hrun & Hraise).
  - specialize (Hraise e eq_refl). lia.
  - rewrite (bind_return _ _ _ _ _ Hrun).
    destruct (veins_loop_inv _ _ _ _ _ _ _ _ _ _ _ _ Hrun) as (new & Hc & _ & Hi & _).
    simpl in Hc. subst new.
    destruct (draw_lines_byte r c calls _ Crect Cbyte) as [H1 H2].
    exists img, st'. subst img. simpl. auto.
Qed.

(** X4: whatever the painter draws, the buffer it returns is a [uint8] array
    with the rows and columns of the input and every channel in
    [[0, 255]]; it raises only on an empty thickness range. *)
Theorem add_veins_shape_and_bytes fuel img_array color num_veins thickness_range st r c :
  rect r c (nd_values img_array) ->
  (walk_fuel (snd (nd_shape img_array)) <= fuel)%nat ->
  exists res st',
    add_veins fuel img_array color num_veins thickness_range st = Some (res, st') /\
    match res with
    | Raise _ => snd thickness_range < fst thickness_range
    | Return a => exists img, a = UInt8 img /\ rect r c img /\ channels byte img
    end.
Proof.
  intros Hrect Hfuel.
  destruct (Z.le_gt_cases (fst thickness_range) (snd thickness_range)) as [Hgood|Hbad].
  - destruct (add_veins_returns fuel img_array color num_veins thickness_range st r c
                Hrect Hfuel Hgood) as (img & st' & Hrun & H1 & H2).
    exists (Return (UInt8 img)), st'. split; [exact Hrun|]. exists img. auto.
  - destruct (nd_shape_nonneg img_array) as [Hh Hw].
    destruct (canvas_of_byte r c img_array Hrect) as [Crect Cbyte].
    unfold add_veins, add_veins_calls. destruct (nd_shape img_array) as [height width].
    simpl in Hh, Hw, Hfuel.
    destruct (veins_loop_total fuel width height color thickness_range
                (Z.to_nat num_veins) Hw Hh Hfuel (canvas_of img_array) [] st)
      as ([e|[img calls]] & st' & Hrun & _).
    + rewrite (bind_raise _ _ _ _ _ Hrun). exists (Raise e), st'. split; [reflexivity | lia].
    + rewrite (bind_return _ _ _ _ _ Hrun).
      destruct (veins_loop_inv _ _ _ _ _ _ _ _ _ _ _ _ Hrun) as (new & Hc & _ & Hi & _).
      simpl in Hc. subst new.
      destruct (draw_lines_byte r c calls _ Crect Cbyte) as [H1 H2].
      exists (Return (UInt8 img)), st'. split; [reflexivity|]. exists img. subst img. auto.
Qed.

(** ** Zero veins on a [uint8] buffer *)

Lemma uint8_mul_255 v : (v * 255) mod 256 = uint8_neg v.
Proof. unfold uint8_neg. Z.to_euclidean_division_equations. lia. Qed.

Lemma uint8_neg_involutive v : byte v -> uint8_neg (uint8_neg v) = v.
Proof. unfold byte, uint8_neg. intros Hv. Z.to_euclidean_division_equations. lia. Qed.

Lemma canvas_of_uint8_neg img :
  canvas_of (UInt8 img) = map (map (rgb_map uint8_neg)) img.
Proof.
  unfold canvas_of, image_fromarray. simpl.
  apply map_ext. intros row. apply map_ext. intros [[x y] z]. simpl.
  now rewrite !uint8_mul_255.
Qed.

Lemma uint8_neg_twice img :
  channels byte img -> map (map (rgb_map uint8_neg)) (map (map (rgb_map uint8_neg)) img) = img.
Proof.
  intros Hch. unfold channels in Hch. rewrite map_map.
  induction Hch as [|row rows Hrow _ IH]; simpl; [reflexivity|]. f_equal; [|exact IH].
  rewrite map_map. clear IH. induction Hrow as [|[[x y] z] ps (Hx & Hy & Hz) _ IH]; simpl;
    [reflexivity|].
  now rewrite IH, !uint8_neg_involutive.
Qed.

(** X5: on a [uint8] buffer, such as the painter itself returns, a call that
    draws no vein (a count of zero or less) is not the identity: it negates
    every channel modulo 256.  A second such call restores the buffer. *)
Theorem add_veins_zero_uint8 fuel img color1 color2 n1 n2 range1 range2 st :
  n1 <= 0 -> n2 <= 0 -> channels byte img ->
  add_veins fuel (UInt8 img) color1 n1 range1 st =
    Some (Return (UInt8 (map (map (rgb_map uint8_neg)) img)), st) /\
  add_veins fuel (UInt8 (map (map (rgb_map uint8_neg)) img)) color2 n2 range2 st =
    Some (Return (UInt8 img), st).
Proof.
  intros H1 H2 Hch.
  assert (Hrun : forall a color n range, n <= 0 ->
             add_veins fuel (UInt8 a) color n range st =
             Some (Return (UInt8 (map (map (rgb_map uint8_neg)) a)), st)).
  { intros a color n range Hn. unfold add_veins, add_veins_calls.
    destruct (nd_shape (UInt8 a)) as [height width].
    replace (Z.to_nat n) with 0%nat by lia. cbn [veins_loop].
    unfold bind, ret. simpl. now rewrite canvas_of_uint8_neg. }
  split; [now apply Hrun|]. rewrite (Hrun _ color2 n2 range2 H2).
  now rewrite uint8_neg_twice.
Qed.

End PainterFacts.

Section PathFacts.

Context {R : PyRandom} {T : Trig} {PIL : Pillow}.

(** ** The geometry of a path *)

(** [int(x)] lies between the floor of [x] and zero. *)
Lemma py_int_floor x :
  Qfloor x <= py_int x <= Qfloor x + 1 /\
  ((0 <= x)%Q -> py_int x = Qfloor x) /\
  ((x < 0)%Q -> py_int x <= 0).
Proof.
  destruct x as [n d]. unfold py_int, Qfloor, Qle, Qlt. simpl.
  rewrite !Z.mul_1_r. repeat split; intros; Z.to_euclidean_division_equations; nia.
Qed.

Lemma Qfloor_above a x : (inject_Z a <= x)%Q -> a <= Qfloor x.
Proof. intros H. rewrite <- (Qfloor_Z a). now apply Qfloor_resp_le. Qed.

Lemma Qfloor_below x b : (x < inject_Z b)%Q -> Qfloor x < b.
Proof.
  intros H. rewrite Zlt_Qlt. apply Qle_lt_trans with x; [apply Qfloor_le | exact H].
Qed.

Lemma py_int_step x x' : (x + 15 <= x')%Q -> py_int x + 14 <= py_int x'.
Proof.
  intros H. destruct (py_int_floor x) as ((_ & Hx) & _). destruct (py_int_floor x') as ((Hx' & _) & _).
  assert (Qfloor x + 15 <= Qfloor x').
  { apply Qfloor_above. rewrite inject_Z_plus.
    apply Qle_trans with (x + 15)%Q; [|exact H].
    change (inject_Z 15) with 15%Q. pose proof (Qfloor_le x). lra. }
  lia.
Qed.

(** A point the loop appends lies within the bounds the test of the loop
    checks, when the walk began at or right of the left margin. *)
Lemma walk_point_in_bounds width height x y :
  (inject_Z ((- width) / 4) <= x)%Q ->
  walk_cond width height x y = true ->
  in_walk_bounds width height (py_int x, py_int y).
Proof.
  intros Hlo C. apply walk_cond_true in C as (Cx & Cy0 & Cy1).
  destruct (py_int_floor x) as ((Hx1 & _) & Hxpos & Hxneg).
  destruct (py_int_floor y) as (_ & Hypos & _).
  pose proof (Qfloor_above _ _ Hlo) as Hfl. pose proof (Qfloor_below _ _ Cx) as Hfb.
  pose proof (Qfloor_above 0 y Cy0) as Hy0. pose proof (Qfloor_below _ _ Cy1) as Hy1.
  unfold in_walk_bounds. simpl. rewrite (Hypos Cy0). repeat split; try lia.
  destruct (Qlt_le_dec x 0) as [Hneg|Hpos].
  - specialize (Hxneg Hneg).
    assert (Qfloor x < 0) by (apply (Qfloor_below x 0); exact Hneg).
    revert Hfl. Z.to_euclidean_division_equations. lia.
  - rewrite (Hxpos Hpos). exact Hfb.
Qed.

Lemma vein_walk_geometry fuel width height :
  forall x y angle points st r st',
    vein_walk fuel width height x y angle points st = Some (Return r, st') ->
    (inject_Z ((- width) / 4) <= x)%Q ->
    exists new,
      r = points ++ new /\
      Forall (in_walk_bounds width height) new /\
      steps_right new /\
      match new with
      | [] => True
      | p :: _ => fst p = py_int x
      end.
Proof.
  induction fuel as [|fuel IH]; intros x y angle points st r st' Hrun Hlo; simpl in Hrun.
  - destruct (walk_cond width height x y); [discriminate|].
    apply ret_inv in Hrun as [<- _]. exists []. rewrite app_nil_r. simpl. auto.
  - destruct (walk_cond width height x y) eqn:C.
    + destruct (walk_step_advance x y angle st) as (x' & y' & angle' & st1 & Hs & Hadv & _).
      rewrite (bind_return _ _ _ _ _ Hs) in Hrun.
      apply IH in Hrun as (new & -> & Hin & Hsteps & Hhead); [|lra].
      exists ((py_int x, py_int y) :: new). rewrite <- app_assoc. simpl.
      repeat split; auto.
      * constructor; [now apply walk_point_in_bounds | exact Hin].
      * destruct new as [|q new]; [exact I|]. split; [|exact Hsteps].
        rewrite Hhead. simpl. now apply py_int_step.
    + apply ret_inv in Hrun as [<- _]. exists []. rewrite app_nil_r. simpl. auto.
Qed.

(** X6: every iteration of the painter ends, and the path it builds runs from
    left to right: each point lies in the rows of the image and between the
    left margin [-width//4] and the right bound [width + width//4], and
    at least 14 columns right of the point before it. *)
Theorem vein_path_geometry fuel width height color thickness_range st :
  0 <= width -> 0 <= height -> (walk_fuel width <= fuel)%nat ->
  exists r st',
    vein fuel width height color thickness_range st = Some (r, st') /\
    match r with
    | Raise _ => snd thickness_range < fst thickness_range
    | Return (points, _) =>
        Forall (in_walk_bounds width height) points /\ steps_right points
    end.
Proof.
  intros Hw Hh Hf.
  destruct (vein_total fuel width height color thickness_range st Hw Hh Hf)
    as (r & st' & Hrun & Hr).
  exists r, st'. split; [exact Hrun|]. destruct r as [e|[points os]].
  - now apply (Hr e).
  - clear Hr. unfold vein in Hrun.
    apply bind_inv_return in Hrun as (start_x & st1 & Hsx & Hrun).
    apply bind_inv_return in Hrun as (start_y & st2 & _ & Hrun).
    apply bind_inv_return in Hrun as (angle & st3 & _ & Hrun).
    apply bind_inv_return in Hrun as (pts & st4 & Hwalk & Hrun).
    apply random_randint_inv in Hsx as [(_ & Hsx & _)|(k & Hk & Hrange)]; [discriminate|].
    inversion Hk; subst k.
    apply vein_walk_geometry in Hwalk as (new & Hnew & Hin & Hsteps & _).
    2:{ rewrite <- Zle_Qle. lia. }
    simpl in Hnew. subst new.
    assert (E : pts = points).
    { destruct (1 <? length pts)%nat.
      - apply bind_inv_return in Hrun as (t & st5 & _ & Hrun).
        apply bind_inv_return in Hrun as (o & st6 & _ & Hrun).
        destruct color as [[cr cg] cb]. apply ret_inv in Hrun as [Hrun _]. now inversion Hrun.
      - apply ret_inv in Hrun as [Hrun _]. now inversion Hrun. }
    subst pts. auto.
Qed.

(** ** Where a path starts *)

Lemma py_int_inject z : py_int (inject_Z z) = z.
Proof. unfold py_int, inject_Z. simpl. apply Z.quot_1_r. Qed.

(** X7: from a start that [random.randint] can return, the walk ends; the path
    is empty exactly when the start lies on the right bound
    [width + width//4] or on the row [height] (both ends of the ranges of
    [randint] are included), and otherwise its first point is the start. *)
Theorem vein_walk_start fuel width height start_x start_y angle st :
  (- width) / 4 <= start_x <= width + width / 4 -> 0 <= start_y <= height ->
  (walk_fuel width <= fuel)%nat ->
  exists points st',
    vein_walk fuel width height (inject_Z start_x) (inject_Z start_y) angle [] st =
      Some (Return points, st') /\
    ((start_x = width + width / 4 \/ start_y = height) /\ points = [] /\ st' = st \/
     (start_x < width + width / 4 /\ start_y < height) /\
     exists rest, points = (start_x, start_y) :: rest).
Proof.
  intros Hx Hy Hf.
  destruct (vein_walk_total fuel width height (inject_Z start_x) (inject_Z start_y) angle [] st
              (walk_fuel_enough width start_x fuel (proj1 Hx) Hf)) as (new & st' & Hrun & _).
  simpl app in Hrun. exists new, st'. split; [exact Hrun|].
  destruct (walk_cond width height (inject_Z start_x) (inject_Z start_y)) eqn:C.
  - right. pose proof C as C'. apply walk_cond_true in C' as (Cx & _ & Cy).
    rewrite <- Zlt_Qlt in Cx, Cy. split; [lia|].
    destruct fuel as [|fuel]; simpl in Hrun; rewrite C in Hrun; [discriminate|].
    destruct (walk_step_advance (inject_Z start_x) (inject_Z start_y) angle st)
      as (x' & y' & angle' & st1 & Hs & Hadv & _).
    rewrite (bind_return _ _ _ _ _ Hs) in Hrun. rewrite !py_int_inject in Hrun.
    simpl app in Hrun.
    apply vein_walk_geometry in Hrun as (rest & -> & _).
    + exists rest. reflexivity.
    + apply Qle_trans with (inject_Z start_x); [rewrite <- Zle_Qle; lia | lra].
  - left. assert (Hout : start_x = width + width / 4 \/ start_y = height).
    { destruct (Z.eq_dec start_x (width + width / 4)) as [|Hnx]; [now left|].
      destruct (Z.eq_dec start_y height) as [|Hny]; [now right|].
      assert (walk_cond width height (inject_Z start_x) (inject_Z start_y) = true).
      { apply walk_cond_true. change 0%Q with (inject_Z 0).
        rewrite <- !Zlt_Qlt, <- Zle_Qle. lia. }
      congruence. }
    split; [exact Hout|].
    destruct fuel as [|fuel]; simpl in Hrun; rewrite C in Hrun;
      apply ret_inv in Hrun as [<- <-]; auto.
Qed.

(** ** Images too narrow for a vein *)

Lemma vein_narrow fuel width height color thickness_range st :
  0 <= width <= 10 -> 0 <= height -> (walk_fuel width <= fuel)%nat ->
  exists points st',
    vein fuel width height color thickness_range st = Some (Return (points, None), st').
Proof.
  intros Hw Hh Hf. unfold vein.
  destruct (random_randint_range ((- width) / 4) (width + width / 4) st) as (sx & st1 & Hsx & Hx).
  { Z.to_euclidean_division_equations. lia. }
  rewrite (bind_return _ _ _ _ _ Hsx).
  destruct (random_randint_range 0 height st1 Hh) as (sy & st2 & Hsy & _).
  rewrite (bind_return _ _ _ _ _ Hsy).
  destruct (random_uniform_range (- (1 # 2)) (1 # 2) st2 ltac:(lra)) as (a & st3 & Ha & _).
  rewrite (bind_return _ _ _ _ _ Ha).
  destruct (vein_walk_total fuel width height (inject_Z sx) (inject_Z sy) a [] st3
              (walk_fuel_enough width sx fuel (proj1 Hx) Hf)) as (pts & st4 & Hrun & Hlen).
  simpl app in Hrun. rewrite (bind_return _ _ _ _ _ Hrun).
  assert (Hshort : (length pts <= 1)%nat).
  { destruct Hlen as [->|Hlen]; [simpl; lia|].
    change 15%Q with (inject_Z 15) in Hlen. change 1%Q with (inject_Z 1) in Hlen.
    unfold Qminus in Hlen.
    rewrite <- !inject_Z_opp, <- !inject_Z_plus, <- inject_Z_mult, <- Zlt_Qlt in Hlen.
    revert Hlen. destruct Hx as [Hx _]. revert Hx. Z.to_euclidean_division_equations. lia. }
  destruct (Nat.ltb_spec 1 (length pts)); [lia|].
  do 2 eexists. reflexivity.
Qed.

Lemma veins_loop_narrow fuel width height color thickness_range n :
  0 <= width <= 10 -> 0 <= height -> (walk_fuel width <= fuel)%nat ->
  forall img calls st,
    exists st',
      veins_loop n fuel width height color thickness_range img calls st =
        Some (Return (img, calls), st').
Proof.
  intros Hw Hh Hf. induction n as [|n IH]; intros img calls st; simpl.
  - eexists. reflexivity.
  - destruct (vein_narrow fuel width height color thickness_range st Hw Hh Hf)
      as (pts & st1 & Hv).
    rewrite (bind_return _ _ _ _ _ Hv). simpl. apply IH.
Qed.

(** X8: on an image of at most 10 columns no path reaches a second point (the
    bound [width + width//4] is at most 15 columns from any start and a
    step is at least 15): whatever the count of veins and the thickness
    range, even an empty one, the painter draws nothing and returns the
    canvas it built from the input. *)
Theorem add_veins_narrow fuel img_array color num_veins thickness_range st :
  snd (nd_shape img_array) <= 10 ->
  (walk_fuel (snd (nd_shape img_array)) <= fuel)%nat ->
  exists st',
    add_veins_calls fuel img_array color num_veins thickness_range st =
      Some (Return (canvas_of img_array, []), st') /\
    add_veins fuel img_array color num_veins thickness_range st =
      Some (Return (UInt8 (canvas_of img_array)), st').
Proof.
  intros Hnarrow Hf. destruct (nd_shape_nonneg img_array) as [Hh Hw].
  unfold add_veins, add_veins_calls. destruct (nd_shape img_array) as [height width].
  simpl in Hh, Hw, Hf, Hnarrow.
  destruct (veins_loop_narrow fuel width height color thickness_range (Z.to_nat num_veins)
              ltac:(lia) Hh Hf (canvas_of img_array) [] st) as (st' & Hrun).
  exists st'. split; [exact Hrun|]. now rewrite (bind_return _ _ _ _ _ Hrun).
Qed.

End PathFacts.

(** * Further properties of the presets *)

Section PresetEdges.

Context {RNG : NumPyRandom} {ND : NdImage} {R : PyRandom} {T : Trig} {PIL : Pillow}.

(** ** Sizes without a pixel *)

Lemma noise_raises_without_pixel nst scale :
  fst (create_seamless_noise nst 0 0 scale) = Raise ValueError.
Proof.
  rewrite create_seamless_noise_normalize by lia.
  unfold normalize, np_min. now rewrite accumulate_octaves_empty by lia.
Qed.

Lemma preset_array_raises fuel nst size base_color scale amp
      color1 count1 thickness1 color2 count2 thickness2 st :
  size <= 0 ->
  preset_array fuel nst size base_color scale amp
    color1 count1 thickness1 color2 count2 thickness2 st = Some (Raise ValueError, st).
Proof.
  intros Hs. unfold preset_array. destruct (Z.ltb_spec size 0); [reflexivity|].
  replace size with 0 by lia. now rewrite noise_raises_without_pixel.
Qed.

Lemma white_carrara_array_preset fuel nst size :
  white_carrara_array fuel nst size =
  preset_array fuel nst size (98 # 100, 96 # 100, 92 # 100)%Q 200 (5 # 100)
    (180, 170, 150) 25 (1, 4) (210, 200, 180) 15 (2, 6).
Proof. reflexivity. Qed.

Lemma champagne_pearl_array_preset fuel nst size :
  champagne_pearl_array fuel nst size =
  preset_array fuel nst size (92 # 100, 88 # 100, 82 # 100)%Q 150 (6 # 100)
    (180, 160, 130) 22 (2, 6) (220, 210, 195) 18 (1, 3).
Proof. reflexivity. Qed.

(** X9: every preset raises [ValueError] when asked for a size of zero or less:
    a negative size in [np.ones], a size of zero in the rescale of an empty
    noise field.  No random number of [random] is consumed. *)
Theorem presets_raise_without_pixel fuel nst size st :
  size <= 0 ->
  generate_white_carrara fuel nst size st = Some (Raise ValueError, st) /\
  generate_calacatta_gold fuel nst size st = Some (Raise ValueError, st) /\
  generate_grey_emperador fuel nst size st = Some (Raise ValueError, st) /\
  generate_statuario fuel nst size st = Some (Raise ValueError, st) /\
  generate_champagne_pearl fuel nst size st = Some (Raise ValueError, st).
Proof.
  intros Hs.
  assert (Hc : calacatta_gold_array fuel nst size st = Some (Raise ValueError, st)).
  { unfold calacatta_gold_array. destruct (Z.ltb_spec size 0); [reflexivity|].
    replace size with 0 by lia. now rewrite noise_raises_without_pixel. }
  repeat split.
  - unfold generate_white_carrara. apply bind_raise.
    rewrite white_carrara_array_preset. now apply preset_array_raises.
  - unfold generate_calacatta_gold. now apply bind_raise.
  - unfold generate_grey_emperador. apply bind_raise.
    rewrite grey_emperador_array_preset. now apply preset_array_raises.
  - unfold generate_statuario. apply bind_raise.
    rewrite statuario_array_preset. now apply preset_array_raises.
  - unfold generate_champagne_pearl. apply bind_raise.
    rewrite champagne_pearl_array_preset. now apply preset_array_raises.
Qed.

(** ** Sizes with a pixel *)

Lemma noise_field_rect nst size scale :
  0 < size ->
  exists f, fst (create_seamless_noise nst size size scale) = Return f /\
    rect (Z.to_nat size) (Z.to_nat size) f.
Proof.
  intros Hs. rewrite create_seamless_noise_normalize by lia.
  destruct (accumulate_octaves_spec nst size size ltac:(lia) ltac:(lia)) as (_ & Hl & Hrw & _).
  cbv zeta in Hl, Hrw. set (noise := fst (accumulate_octaves nst size size)) in *.
  assert (Hin : In (grid_nth noise 0 0) (flat noise)).
  { apply nth_in_flat; [lia|]. rewrite (row_width_nth (Z.to_nat size)); auto; lia. }
  destruct (np_min_spec noise _ Hin) as (mn & Hmn & _).
  destruct (np_max_spec noise _ Hin) as (mx & Hmx & _).
  unfold normalize. rewrite Hmn, Hmx. eexists. split; [reflexivity|].
  apply rect_map. split; assumption.
Qed.

Lemma add_texture_rect size color noise amp :
  rect (Z.to_nat size) (Z.to_nat size) noise ->
  rect (Z.to_nat size) (Z.to_nat size) (add_texture (np_full size color) noise amp).
Proof. intros Hrect. rewrite add_texture_full by assumption. now apply rect_map. Qed.

Lemma rect_values (n : nat) (img : list (list (rgb Z))) :
  rect n n img -> rect n n (nd_values (UInt8 img)).
Proof. intros H. simpl. now apply rect_map. Qed.

Lemma rect_shape {A : Type} (n : nat) (a : list (list A)) :
  (0 < n)%nat -> rect n n a -> Z.of_nat (length (hd [] a)) = Z.of_nat n.
Proof. intros Hn Hrect. now rewrite (rect_hd n n a Hrect Hn). Qed.

(** Line 91 and its likes on a [uint8] buffer: every channel becomes 0 or
    255. *)
Lemma final_binary r c img :
  rect r c img ->
  rect r c (astype_uint8 (nd_mul (np_clip (UInt8 img) 0 1) 255)) /\
  channels binary (astype_uint8 (nd_mul (np_clip (UInt8 img) 0 1) 255)).
Proof.
  intros Hrect. simpl. split; [now apply rect_map, rect_map|].
  unfold channels. apply Forall_forall. intros row Hrow.
  apply in_map_iff in Hrow as (row1 & <- & Hrow1).
  apply in_map_iff in Hrow1 as (row0 & <- & _). apply Forall_forall. intros p Hp.
  apply in_map_iff in Hp as (p1 & <- & Hp1).
  apply in_map_iff in Hp1 as ([[x y] z] & <- & _).
  simpl. unfold binary.
  assert (B : forall v, (Z.min (Z.max v 0) 1 * 255) mod 256 = 0 \/
                        (Z.min (Z.max v 0) 1 * 255) mod 256 = 255).
  { intros v. destruct (Z.le_gt_cases v 0).
    - left. replace (Z.min (Z.max v 0) 1) with 0 by lia. reflexivity.
    - right. replace (Z.min (Z.max v 0) 1) with 1 by lia. reflexivity. }
  repeat split; apply B.
Qed.

Lemma preset_array_binary fuel nst size base_color scale amp
      color1 count1 thickness1 color2 count2 thickness2 st :
  0 < size -> (walk_fuel size <= fuel)%nat ->
  fst thickness1 <= snd thickness1 -> fst thickness2 <= snd thickness2 ->
  returns_binary size
    (preset_array fuel nst size base_color scale amp
       color1 count1 thickness1 color2 count2 thickness2) st.
Proof.
  intros Hs Hfuel Ht1 Ht2. unfold returns_binary, preset_array.
  destruct (Z.ltb_spec size 0); [lia|].
  destruct (noise_field_rect nst size scale Hs) as (f & -> & Hrect).
  set (n := Z.to_nat size) in *.
  assert (Hn : (0 < n)%nat) by (subst n; lia).
  assert (Hsize : Z.of_nat n = size) by (subst n; lia).
  pose proof (add_texture_rect size base_color f amp Hrect) as Trect. fold n in Trect.
  set (tex := add_texture (np_full size base_color) f amp) in *.
  destruct (add_veins_returns fuel (Float64 tex) color1 count1 thickness1 st n n Trect)
    as (img1 & st1 & Hrun1 & R1 & _); auto.
  { simpl. rewrite (rect_shape n tex Hn Trect). now rewrite Hsize. }
  rewrite (bind_return _ _ _ _ _ Hrun1).
  destruct (add_veins_returns fuel (UInt8 img1) color2 count2 thickness2 st1 n n
              (rect_values n img1 R1)) as (img2 & st2 & Hrun2 & R2 & _); auto.
  { simpl. rewrite (rect_shape n img1 Hn R1). now rewrite Hsize. }
  rewrite (bind_return _ _ _ _ _ Hrun2).
  destruct (final_binary n n img2 R2) as [F1 F2].
  do 2 eexists. split; [reflexivity|]. split; assumption.
Qed.

(** X10: for every size of at least one pixel and from every state of the
    generators, each of the five presets returns (it does not raise) a
    square array of that size to hand to [Image.fromarray], and every
    channel of it is 0 or 255: [np.clip(base, 0, 1) * 255] is applied to the
    [uint8] buffer the painter returned, so it sends 0 to 0 and every other
    byte to 255. *)
Theorem presets_return_binary fuel nst size st :
  0 < size -> (walk_fuel size <= fuel)%nat ->
  returns_binary size (white_carrara_array fuel nst size) st /\
  returns_binary size (calacatta_gold_array fuel nst size) st /\
  returns_binary size (grey_emperador_array fuel nst size) st /\
  returns_binary size (statuario_array fuel nst size) st /\
  returns_binary size (champagne_pearl_array fuel nst size) st.
Proof.
  intros Hs Hfuel. repeat split.
  - rewrite white_carrara_array_preset. apply preset_array_binary; simpl; lia.
  - unfold returns_binary, calacatta_gold_array. destruct (Z.ltb_spec size 0); [lia|].
    destruct (noise_field_rect nst size 250 Hs) as (f & -> & Hrect).
    set (n := Z.to_nat size) in *.
    assert (Hn : (0 < n)%nat) by (subst n; lia).
    assert (Hsize : Z.of_nat n = size) by (subst n; lia).
    pose proof (add_texture_rect size (99 # 100, 98 # 100, 96 # 100)%Q f (3 # 100) Hrect)
      as Trect. fold n in Trect.
    set (tex := add_texture _ f (3 # 100)) in *.
    destruct (add_veins_returns fuel (Float64 tex) (200, 170, 110) 12 (4, 12) st n n Trect)
      as (img1 & st1 & Hrun1 & R1 & _); [| simpl; lia |].
    { simpl. rewrite (rect_shape n tex Hn Trect). now rewrite Hsize. }
    rewrite (bind_return _ _ _ _ _ Hrun1).
    destruct (add_veins_returns fuel (UInt8 img1) (180, 160, 120) 8 (6, 15) st1 n n
                (rect_values n img1 R1)) as (img2 & st2 & Hrun2 & R2 & _); [| simpl; lia |].
    { simpl. rewrite (rect_shape n img1 Hn R1). now rewrite Hsize. }
    rewrite (bind_return _ _ _ _ _ Hrun2).
    destruct (add_veins_returns fuel (UInt8 img2) (160, 160, 165) 10 (2, 5) st2 n n
                (rect_values n img2 R2)) as (img3 & st3 & Hrun3 & R3 & _); [| simpl; lia |].
    { simpl. rewrite (rect_shape n img2 Hn R2). now rewrite Hsize. }
    rewrite (bind_return _ _ _ _ _ Hrun3).
    destruct (final_binary n n img3 R3) as [F1 F2].
    do 2 eexists. split; [reflexivity|]. split; assumption.
  - rewrite grey_emperador_array_preset. apply preset_array_binary; simpl; lia.
  - rewrite statuario_array_preset. apply preset_array_binary; simpl; lia.
  - rewrite champagne_pearl_array_preset. apply preset_array_binary; simpl; lia.
Qed.

(** X11: Champagne Pearl shares the fate of Statuario and Grey Emperador: from
    every state of the generators and for every noise field that is not
    flat, the array it hands to the blur holds 255 in every channel. *)
Theorem champagne_pearl_renders_white fuel nst size st a b :
  let noise := fst (accumulate_octaves nst size size) in
  In a (flat noise) -> In b (flat noise) -> (a < b)%Q ->
  (walk_fuel size <= fuel)%nat ->
  exists st',
    champagne_pearl_array fuel nst size st = Some (Return (white_image size), st') /\
    generate_champagne_pearl fuel nst size st =
      Some (Return (gaussian_blur (6 # 10) (white_image size)), st').
Proof.
  intros noise Ha Hb Hab Hfuel.
  assert (Harr : exists st', champagne_pearl_array fuel nst size st =
                             Some (Return (white_image size), st')).
  { rewrite champagne_pearl_array_preset.
    apply (preset_array_white fuel nst size _ _ _ _ _ _ _ _ _ st a b);
      try assumption; unfold byte_pos; simpl; try lia; try lra; repeat split; lra. }
  destruct Harr as [st' Harr]. exists st'. split; [exact Harr|].
  unfold generate_champagne_pearl. now rewrite (bind_return _ _ _ _ _ Harr).
Qed.

End PresetEdges.

(** ** The further properties on concrete inputs *)

Section EdgeExamples.

#[local] Existing Instance lcg_random.
#[local] Existing Instance block_zoom.
#[local] Existing Instance scripted_random.
#[local] Existing Instance small_angle.
#[local] Existing Instance dots.

Lemma create_seamless_noise_raises_witness :
  fst (create_seamless_noise 7 0 5 100) = Raise ValueError.
Proof.
  apply (@create_seamless_noise_raises lcg_random block_zoom 7 0 5 100). left. lia.
Defined.

Lemma create_seamless_noise_field_witness :
  exists f, fst (create_seamless_noise 7 3 2 100) = Return f /\
    rect (Z.to_nat 2) (Z.to_nat 3) f /\
    (Forall (Forall (eq NaN)) f \/ Forall (Forall unit_value) f).
Proof.
  apply (@create_seamless_noise_field lcg_random block_zoom 7 3 2 100); lia.
Defined.

Lemma create_seamless_noise_leaves_state_witness :
  snd (create_seamless_noise 7 40 70 100) =
  snd (np_random_rand (Z.to_nat (70 / 32 + 2)) (Z.to_nat (40 / 32 + 2)) (np_random_seed 47)).
Proof.
  apply (@create_seamless_noise_leaves_state lcg_random block_zoom 7 40 70 100); lia.
Defined.

Lemma add_veins_shape_and_bytes_witness :
  exists res st',
    add_veins 2 grey_row (1, 2, 3) 1 (2, 8) one_vein_script = Some (res, st') /\
    match res with
    | Raise _ => snd (2, 8) < fst (2, 8)
    | Return a => exists img, a = UInt8 img /\ rect 1 11 img /\ channels byte img
    end.
Proof.
  apply (@add_veins_shape_and_bytes scripted_random small_angle dots 2 grey_row (1, 2, 3) 1
           (2, 8) one_vein_script 1 11).
  - split; [reflexivity | repeat constructor].
  - vm_compute. lia.
Defined.

Lemma add_veins_zero_uint8_witness :
  add_veins 0 (UInt8 two_bytes) (1, 2, 3) 0 (2, 8) [] =
    Some (Return (UInt8 (map (map (rgb_map uint8_neg)) two_bytes)), []) /\
  add_veins 0 (UInt8 (map (map (rgb_map uint8_neg)) two_bytes)) (4, 5, 6) (-1) (3, 9) [] =
    Some (Return (UInt8 two_bytes), []).
Proof.
  apply (@add_veins_zero_uint8 scripted_random small_angle dots 0 two_bytes
           (1, 2, 3) (4, 5, 6) 0 (-1) (2, 8) (3, 9) []); try lia.
  unfold channels, two_bytes, byte. repeat constructor; simpl; lia.
Defined.

Lemma vein_path_geometry_witness :
  exists r st',
    vein (walk_fuel 40) 40 40 (1, 2, 3) (2, 8)
      [0; 20; 500; 500; 0; 0; 500; 0; 0; 500; 0; 0; 500; 0; 0; 3; 7] = Some (r, st') /\
    match r with
    | Raise _ => snd (2, 8) < fst (2, 8)
    | Return (points, _) => Forall (in_walk_bounds 40 40) points /\ steps_right points
    end.
Proof.
  apply (@vein_path_geometry scripted_random small_angle (walk_fuel 40) 40 40 (1, 2, 3) (2, 8));
    lia.
Defined.

Lemma vein_walk_start_witness :
  exists points st',
    vein_walk (walk_fuel 40) 40 40 (inject_Z (-10)) (inject_Z 20) 0 []
      [500; 0; 0; 500; 0; 0; 500; 0; 0; 500; 0; 0] = Some (Return points, st') /\
    ((-10 = 40 + 40 / 4 \/ 20 = 40) /\ points = [] /\
       st' = [500; 0; 0; 500; 0; 0; 500; 0; 0; 500; 0; 0] \/
     (-10 < 40 + 40 / 4 /\ 20 < 40) /\ exists rest, points = (-10, 20) :: rest).
Proof.
  apply (@vein_walk_start scripted_random small_angle (walk_fuel 40) 40 40 (-10) 20 0
           [500; 0; 0; 500; 0; 0; 500; 0; 0; 500; 0; 0]);
    [vm_compute; split; discriminate | lia | lia].
Defined.

Lemma add_veins_narrow_witness :
  exists st',
    add_veins_calls 2 small_buffer (1, 2, 3) 5 (8, 2) [1; 2; 3] =
      Some (Return (canvas_of small_buffer, []), st') /\
    add_veins 2 small_buffer (1, 2, 3) 5 (8, 2) [1; 2; 3] =
      Some (Return (UInt8 (canvas_of small_buffer)), st').
Proof.
  apply (@add_veins_narrow scripted_random small_angle dots 2 small_buffer (1, 2, 3) 5 (8, 2)
           [1; 2; 3]).
  - vm_compute. discriminate.
  - vm_compute. lia.
Defined.

Lemma presets_raise_without_pixel_witness :
  generate_white_carrara 1 7 0 [] = Some (Raise ValueError, []) /\
  generate_calacatta_gold 1 7 0 [] = Some (Raise ValueError, []) /\
  generate_grey_emperador 1 7 0 [] = Some (Raise ValueError, []) /\
  generate_statuario 1 7 0 [] = Some (Raise ValueError, []) /\
  generate_champagne_pearl 1 7 0 [] = Some (Raise ValueError, []).
Proof.
  apply (@presets_raise_without_pixel lcg_random block_zoom scripted_random small_angle dots
           1 7 0 []). lia.
Defined.

Lemma presets_return_binary_witness :
  returns_binary 2 (white_carrara_array (walk_fuel 2) 7 2) [] /\
  returns_binary 2 (calacatta_gold_array (walk_fuel 2) 7 2) [] /\
  returns_binary 2 (grey_emperador_array (walk_fuel 2) 7 2) [] /\
  returns_binary 2 (statuario_array (walk_fuel 2) 7 2) [] /\
  returns_binary 2 (champagne_pearl_array (walk_fuel 2) 7 2) [].
Proof.
  apply (@presets_return_binary lcg_random block_zoom scripted_random small_angle dots
           (walk_fuel 2) 7 2 []); lia.
Defined.

Lemma champagne_pearl_renders_white_witness :
  exists st',
    champagne_pearl_array (walk_fuel 2) 7 2 [] = Some (Return (white_image 2), st') /\
    generate_champagne_pearl (walk_fuel 2) 7 2 [] =
      Some (Return (gaussian_blur (6 # 10) (white_image 2)), st').
Proof.
  apply (@champagne_pearl_renders_white lcg_random block_zoom scripted_random small_angle dots
           (walk_fuel 2) 7 2 []
           (grid_nth (fst (accumulate_octaves (RNG := lcg_random) 7 2 2)) 1 1)
           (grid_nth (fst (accumulate_octaves (RNG := lcg_random) 7 2 2)) 0 0)).
  - apply nth_in_flat; vm_compute; lia.
  - apply nth_in_flat; vm_compute; lia.
  - vm_compute. reflexivity.
  - lia.
Defined.

End EdgeExamples.
